(** * Race to 18: the room / turn / game state machine

    A shallow embedding of [server/src/game/Player.ts], [GameState.ts],
    [GameRoom.ts] and of the game handlers of [server/src/socket/socketHandler.ts].

    Conventions of the embedding.
    - A JavaScript object held in an array is a record at a position of a list:
      a reference to a roster player is its position.  A roster never holds one
      object twice ([addPlayer] refuses a player whose id is present), so
      mutating the object behind a reference is altering the list at that
      position.
    - Scores and rolls are integers ([Z]): a score starts at 0 and only ever
      grows by a die value.  The numbers of JavaScript add integers exactly
      as long as they are safe integers ([exact_sum]).
    - The turn cursor is a JavaScript number that starts at 0 and is only ever
      assigned [0] or [(cursor + 1) % length]: it is a natural number or [NaN].
    - Methods of [GameState] pass the game state (and the players they mutate)
      explicitly; methods of [GameRoom] live in a state monad over the room
      with one exception, the [TypeError] of reading a property of
      [undefined].
    - Logging and broadcasting have no effect on the room and are left out. *)

From stdpp Require Import base list strings pretty.
From stdpp Require Import gmap.
From Stdlib Require Import ZArith Lia.

Open Scope Z_scope.

(** ** Player.ts *)

Inductive PlayerStatus := active | bust | held | won.

#[global] Instance PlayerStatus_eq_dec : EqDecision PlayerStatus.
Proof. solve_decision. Defined.

Record PlayerData := mkPlayerData {
  pd_id : string;
  pd_name : string;
  pd_score : Z;
  pd_status : PlayerStatus
}.

Record Player := mkPlayer {
  id : string;
  name : string;
  socketId : string;
  score : Z;
  status : PlayerStatus;
  joinedAt : Z
}.

(** [new Player(id, name, socketId)]; [now] is the value of [Date.now()]. *)
Definition newPlayer (i n s : string) (now : Z) : Player :=
  {| id := i; name := n; socketId := s; score := 0; status := active;
     joinedAt := now |}.

Definition set_score (s : Z) (p : Player) : Player :=
  {| id := id p; name := name p; socketId := socketId p; score := s;
     status := status p; joinedAt := joinedAt p |}.

Definition set_status (st : PlayerStatus) (p : Player) : Player :=
  {| id := id p; name := name p; socketId := socketId p; score := score p;
     status := st; joinedAt := joinedAt p |}.

(** [Player.reset()] *)
Definition reset_player (p : Player) : Player :=
  set_status active (set_score 0 p).

(** [Player.toJSON()] *)
Definition toJSON (p : Player) : PlayerData :=
  {| pd_id := id p; pd_name := name p; pd_score := score p;
     pd_status := status p |}.

(** ** GameState.ts *)

Inductive GameStatus := G_playing | G_bust | G_perfect | G_held | G_error.

Record ScoreUpdateResult := mkScoreUpdateResult {
  su_status : GameStatus;
  su_message : string;
  newScore : Z
}.

Record HoldResult := mkHoldResult {
  h_status : GameStatus;
  h_message : string;
  finalScore : option Z
}.

Record GameState := mkGameState {
  targetScore : Z;
  gameStarted : bool;
  gameOver : bool;
  winner : option string
}.

(** [new GameState()] *)
Definition newGameState : GameState :=
  {| targetScore := 18; gameStarted := false; gameOver := false;
     winner := None |}.

Definition set_gameOver (b : bool) (gs : GameState) : GameState :=
  {| targetScore := targetScore gs; gameStarted := gameStarted gs;
     gameOver := b; winner := winner gs |}.

Definition set_winner (w : option string) (gs : GameState) : GameState :=
  {| targetScore := targetScore gs; gameStarted := gameStarted gs;
     gameOver := gameOver gs; winner := w |}.

(** [GameState.updateScore(player, roll)]: the result, the game state and
    the player after the call.  [player.score += roll] is the sum of
    integers as long as the numbers are safe integers ([exact_sum]). *)
Definition updateScore (gs : GameState) (player : Player) (roll : Z)
  : ScoreUpdateResult * GameState * Player :=
  let player := set_score (score player + roll) player in
  if bool_decide (score player > targetScore gs) then
    let player := set_status bust player in
    ({| su_status := G_bust;
        su_message := name player +:+ " BUSTED with " +:+ pretty (score player) +:+ "!";
        newScore := score player |}, gs, player)
  else if bool_decide (score player = targetScore gs) then
    let player := set_status won player in
    let gs := set_winner (Some (id player)) (set_gameOver true gs) in
    ({| su_status := G_perfect;
        su_message := name player +:+ " hit PERFECT 18! ðŸŽ‰";
        newScore := score player |}, gs, player)
  else
    ({| su_status := G_playing;
        su_message := name player +:+ " rolled " +:+ pretty roll +:+ ". Score: "
                      +:+ pretty (score player);
        newScore := score player |}, gs, player).

(** [GameState.hold(player)]; the game state is not touched. *)
Definition hold (gs : GameState) (player : Player) : HoldResult * Player :=
  if bool_decide (status player ≠ active) then
    ({| h_status := G_error;
        h_message := "Player cannot hold in current state";
        finalScore := None |}, player)
  else
    let player := set_status held player in
    let distance := targetScore gs - score player in
    ({| h_status := G_held;
        h_message := name player +:+ " held at " +:+ pretty (score player) +:+ " ("
                     +:+ pretty distance +:+ " away from 18)";
        finalScore := Some (score player) |}, player).

(** [Array.prototype.reduce] without an initial value: the first element
    seeds the accumulator; on an empty array it throws ([None]). *)
Definition reduce {A} (f : A → A → A) (l : list A) : option A :=
  match l with
  | [] => None
  | x :: l' => Some (foldl f x l')
  end.

(** The callback of the [reduce] in [determineWinner], on references. *)
Definition better (best current : nat * Player) : nat * Player :=
  if bool_decide (score current.2 > score best.2) then current else best.

Definition candidate (p : Player) : Prop := status p = held ∨ status p = won.

(** The array [validPlayers] of [determineWinner]: it holds references into
    [players], so each of its elements carries its position. *)
Definition validPlayers (players : list Player) : list (nat * Player) :=
  filter (λ ip, candidate ip.2) (imap pair players).

(** [GameState.determineWinner(players)] *)
Definition determineWinner (gs : GameState) (players : list Player)
  : GameState * list Player :=
  let validPlayers := validPlayers players in
  if bool_decide (length validPlayers = 0%nat) then
    (set_winner None gs, players)
  else
    match reduce better validPlayers with
    | Some w => (set_winner (Some (id w.2)) gs, alter (set_status won) w.1 players)
    | None => (gs, players) (* not reached: [validPlayers] is not empty *)
    end.

(** [GameState.checkGameOver(players)] *)
Definition checkGameOver (gs : GameState) (players : list Player)
  : bool * GameState * list Player :=
  if gameOver gs then (true, gs, players)
  else
    let activePlayers := filter (λ p, status p = active) players in
    if bool_decide (length activePlayers = 0%nat) then
      let '(gs, players) := determineWinner (set_gameOver true gs) players in
      (true, gs, players)
    else (false, gs, players).

(** [GameState.reset()] *)
Definition reset (gs : GameState) : GameState :=
  {| targetScore := targetScore gs; gameStarted := false; gameOver := false;
     winner := None |}.

(** [GameState.start()] *)
Definition start (gs : GameState) : GameState :=
  {| targetScore := targetScore gs; gameStarted := true; gameOver := false;
     winner := None |}.


(** ** GameRoom.ts *)

(** The value of [currentTurnIndex]. *)
Inductive num := Num (n : nat) | NaN.

#[global] Instance num_eq_dec : EqDecision num.
Proof. solve_decision. Defined.

(** [x + 1] *)
Definition num_succ (x : num) : num :=
  match x with Num n => Num (n + 1) | NaN => NaN end.

(** [x % m] for an array length [m]: [NaN] when [m] is 0. *)
Definition num_rem (x : num) (m : nat) : num :=
  match x, m with
  | Num n, S _ => Num (n mod m)
  | _, _ => NaN
  end.

(** [x >= m] for an array length [m]: false on [NaN]. *)
Definition num_ge (x : num) (m : nat) : bool :=
  match x with Num n => bool_decide (m ≤ n)%nat | NaN => false end.

(** [arr[x]]: [undefined] ([None]) out of range and at [NaN]. *)
Definition at_index {A} (arr : list A) (x : num) : option (nat * A) :=
  match x with
  | Num n => (λ a, (n, a)) <$> arr !! n
  | NaN => None
  end.

Record GameRoom := mkGameRoom {
  roomId : string;               (* the field [id] *)
  players : list Player;
  gameState : GameState;
  currentTurnIndex : num;
  maxPlayers : Z;
  createdAt : Z
}.

(** [new GameRoom(id, io, maxPlayers)]; [now] is the value of [Date.now()]. *)
Definition newGameRoom (i : string) (maxPlayers : Z) (now : Z) : GameRoom :=
  {| roomId := i; players := []; gameState := newGameState;
     currentTurnIndex := Num 0; maxPlayers := maxPlayers; createdAt := now |}.

Definition set_players (ps : list Player) (r : GameRoom) : GameRoom :=
  {| roomId := roomId r; players := ps; gameState := gameState r;
     currentTurnIndex := currentTurnIndex r; maxPlayers := maxPlayers r;
     createdAt := createdAt r |}.

Definition set_gameState (gs : GameState) (r : GameRoom) : GameRoom :=
  {| roomId := roomId r; players := players r; gameState := gs;
     currentTurnIndex := currentTurnIndex r; maxPlayers := maxPlayers r;
     createdAt := createdAt r |}.

Definition set_currentTurnIndex (x : num) (r : GameRoom) : GameRoom :=
  {| roomId := roomId r; players := players r; gameState := gameState r;
     currentTurnIndex := x; maxPlayers := maxPlayers r;
     createdAt := createdAt r |}.

Record RoomState := mkRoomState {
  rs_roomId : string;
  rs_players : list PlayerData;
  rs_currentTurn : option string;
  rs_gameStarted : bool;
  rs_gameOver : bool;
  rs_winner : option string
}.

(** *** The monad of room methods *)

Inductive outcome (A : Type) := Ret (a : A) | Throw.
Arguments Ret {A} a.
Arguments Throw {A}.

Definition M (A : Type) : Type := GameRoom → outcome A * GameRoom.

#[global] Instance M_ret : MRet M := λ A a r, (Ret a, r).

#[global] Instance M_bind : MBind M := λ A B k m r,
  match m r with
  | (Ret a, r') => k a r'
  | (Throw, r') => (Throw, r')
  end.

Definition get : M GameRoom := λ r, (Ret r, r).
Definition modify (f : GameRoom → GameRoom) : M unit := λ r, (Ret (), f r).
Definition throw {A} : M A := λ r, (Throw, r).

(** [try { m } catch (error) { ... }]: the handlers log and report the error;
    the room stays as the failing statement left it. *)
Definition try_catch (m : M unit) : M unit := λ r,
  match m r with
  | (Throw, r') => (Ret (), r')
  | x => x
  end.

(** [m] run on [r]: the room afterwards. *)
Definition exec {A} (m : M A) (r : GameRoom) : GameRoom := (m r).2.
(** [m] run on [r]: what it returns. *)
Definition result {A} (m : M A) (r : GameRoom) : outcome A := (m r).1.

(** [x || null] on a string: the empty string is falsy. *)
Definition or_null (s : string) : option string :=
  if bool_decide (s = "") then None else Some s.

(** *** Methods *)

(** [GameRoom.addPlayer(player)] *)
Definition addPlayer (player : Player) : M bool :=
  r ← get;
  if bool_decide (Z.of_nat (length (players r)) >= maxPlayers r) then mret false
  else if list_find (λ p, id p = id player) (players r) is Some _ then mret false
  else
    modify (λ r, set_players (players r ++ [player]) r);;
    r ← get;
    (if bool_decide (2 ≤ length (players r))%nat && negb (gameStarted (gameState r))
     then modify (λ r, set_gameState (start (gameState r)) r)
     else mret ());;
    mret true.

(** [GameRoom.removePlayer(playerId)] *)
Definition removePlayer (playerId : string) : M bool :=
  r ← get;
  match list_find (λ p, id p = playerId) (players r) with
  | None => mret false
  | Some (index, player) =>
    modify (λ r, set_players (delete index (players r)) r);;
    r ← get;
    (if num_ge (currentTurnIndex r) (length (players r))
     then modify (set_currentTurnIndex (Num 0))
     else mret ());;
    r ← get;
    (if bool_decide (length (players r) < 2)%nat
     then modify (λ r, set_gameState (set_gameOver true (gameState r)) r)
     else mret ());;
    mret true
  end.

(** [GameRoom.nextTurn()] *)
Definition nextTurn : M unit :=
  modify (λ r, set_currentTurnIndex
                 (num_rem (num_succ (currentTurnIndex r)) (length (players r))) r).

(** The [while] loop of [getCurrentPlayer]; [fuel] is
    [this.players.length - attempts], and the roster does not change in the
    loop.  Reading [player.status] throws when [player] is [undefined]. *)
Fixpoint getCurrentPlayer_loop (fuel : nat) : M (option (nat * Player)) :=
  match fuel with
  | O => mret None
  | S fuel =>
    r ← get;
    match at_index (players r) (currentTurnIndex r) with
    | None => throw
    | Some (i, player) =>
      if bool_decide (status player = active) then mret (Some (i, player))
      else nextTurn;; getCurrentPlayer_loop fuel
    end
  end.

(** [GameRoom.getCurrentPlayer()]: a reference to a roster player (its
    position, with the record found there) or [null]. *)
Definition getCurrentPlayer : M (option (nat * Player)) :=
  r ← get;
  if bool_decide (length (players r) = 0)%nat then mret None
  else getCurrentPlayer_loop (length (players r)).

(** [GameRoom.getPlayer(playerId)] *)
Definition getPlayer (playerId : string) : M (option (nat * Player)) :=
  r ← get; mret (list_find (λ p, id p = playerId) (players r)).

(** [GameRoom.getState()] *)
Definition getState : M RoomState :=
  r ← get;
  let ps := toJSON <$> players r in
  cur ← getCurrentPlayer;
  r ← get;
  mret {| rs_roomId := roomId r;
          rs_players := ps;
          rs_currentTurn := cur ≫= (λ ip, or_null (id ip.2));
          rs_gameStarted := gameStarted (gameState r);
          rs_gameOver := gameOver (gameState r);
          rs_winner := winner (gameState r) |}.

(** [GameRoom.resetGame()] *)
Definition resetGame : M unit :=
  modify (λ r, set_gameState (reset (gameState r)) r);;
  modify (λ r, set_players (reset_player <$> players r) r);;
  modify (set_currentTurnIndex (Num 0));;
  r ← get;
  if bool_decide (2 ≤ length (players r))%nat
  then modify (λ r, set_gameState (start (gameState r)) r)
  else mret ().

(** [GameRoom.isEmpty()] *)
Definition isEmpty : M bool :=
  r ← get; mret (bool_decide (length (players r) = 0)%nat).


(** ** socketHandler.ts: the handlers, as they act on one room

    The registry lookup and the emitted messages are left out; what is kept
    is every call a handler makes on the room, in order.  The identifiers
    made by [uuidv4()], the clock and the die are arguments. *)

(** [room.gameState.updateScore(currentPlayer, roll)], on the reference
    [(i, cur)] that [getCurrentPlayer] returned. *)
Definition room_updateScore (i : nat) (cur : Player) (roll : Z) : M ScoreUpdateResult :=
  r ← get;
  let '(res, gs, cur') := updateScore (gameState r) cur roll in
  modify (λ r, set_gameState gs (set_players (<[i:=cur']> (players r)) r));;
  mret res.

(** [room.gameState.hold(currentPlayer)] *)
Definition room_hold (i : nat) (cur : Player) : M HoldResult :=
  r ← get;
  let '(res, cur') := hold (gameState r) cur in
  modify (λ r, set_players (<[i:=cur']> (players r)) r);;
  mret res.

(** [room.gameState.checkGameOver(room.players)] *)
Definition room_checkGameOver : M bool :=
  r ← get;
  let '(over, gs, ps) := checkGameOver (gameState r) (players r) in
  modify (λ r, set_gameState gs (set_players ps r));;
  mret over.

(** What both [handleRollDice] and [handleHold] do after the move. *)
Definition after_move : M unit :=
  over ← room_checkGameOver;
  if (over : bool) then
    getState;; mret ()
  else
    nextTurn;;
    getCurrentPlayer;;
    getState;;
    mret ().

(** [handleJoinRoom], for a room that exists *)
Definition handleJoinRoom (playerId playerName socketId : string) (now : Z) : M unit :=
  try_catch (
    if bool_decide (playerName = "") then mret ()
    else
      success ← addPlayer (newPlayer playerId playerName socketId now);
      if negb (success : bool) then mret ()
      else getState;; getState;; mret ()).

(** [handleRollDice]; [roll] is the value of [rollDice()]. *)
Definition handleRollDice (playerId : string) (roll : Z) : M unit :=
  try_catch (
    currentPlayer ← getCurrentPlayer;
    match currentPlayer with
    | None => mret ()
    | Some (i, cur) =>
      if bool_decide (id cur ≠ playerId) then mret ()
      else
        room_updateScore i cur roll;;
        after_move
    end).

(** [handleHold] *)
Definition handleHold (playerId : string) : M unit :=
  try_catch (
    currentPlayer ← getCurrentPlayer;
    match currentPlayer with
    | None => mret ()
    | Some (i, cur) =>
      if bool_decide (id cur ≠ playerId) then mret ()
      else
        room_hold i cur;;
        getState;;
        after_move
    end).

(** [handleNewGame] *)
Definition handleNewGame : M unit :=
  try_catch (resetGame;; getState;; mret ()).

(** [handleDisconnect] *)
Definition handleDisconnect (playerId : string) : M unit :=
  try_catch (
    player ← getPlayer playerId;
    if player is Some _ then
      removePlayer playerId;;
      getState;;
      mret ()
    else mret ()).

Inductive event :=
| JOIN_ROOM (playerId playerName socketId : string) (now : Z)
| ROLL_DICE (playerId : string) (roll : Z)
| HOLD (playerId : string)
| NEW_GAME
| DISCONNECT (playerId : string).

Definition handle (e : event) : M unit :=
  match e with
  | JOIN_ROOM playerId playerName socketId now =>
      handleJoinRoom playerId playerName socketId now
  | ROLL_DICE playerId roll => handleRollDice playerId roll
  | HOLD playerId => handleHold playerId
  | NEW_GAME => handleNewGame
  | DISCONNECT playerId => handleDisconnect playerId
  end.

(** [rollDice()] is [Math.floor(Math.random() * 6) + 1]. *)
Definition die (roll : Z) : Prop := 1 ≤ roll ≤ 6.

Definition possible (e : event) : Prop :=
  match e with
  | ROLL_DICE _ roll => die roll
  | _ => True
  end.

(** The rooms the handlers can produce from a new room.  [handleCreateRoom]
    is [new GameRoom] followed by what [handleJoinRoom] does on it.  The
    capacity of the new room is a number: a [MAX_PLAYERS_PER_ROOM] that
    [parseInt] cannot read ([NaN]) is not among the rooms described. *)
Inductive reachable : GameRoom → Prop :=
| reachable_new i maxPlayers now :
    reachable (newGameRoom i maxPlayers now)
| reachable_handle r e :
    reachable r → possible e → reachable (exec (handle e) r).

(** Calls made on a room directly. *)
Inductive call :=
| AddPlayer (player : Player)
| RemovePlayer (playerId : string)
| NextTurn.

Definition do_call (c : call) : M unit :=
  match c with
  | AddPlayer player => addPlayer player;; mret ()
  | RemovePlayer playerId => removePlayer playerId;; mret ()
  | NextTurn => nextTurn
  end.

Fixpoint do_calls (cs : list call) : M unit :=
  match cs with
  | [] => mret ()
  | c :: cs => do_call c;; do_calls cs
  end.

(** ** Predicates of the statements *)

(** [Number.MAX_SAFE_INTEGER] *)
Definition MAX_SAFE_INTEGER : Z := 2 ^ 53 - 1.

(** [Number.isSafeInteger], on an integer. *)
Definition safe_integer (z : Z) : Prop :=
  - MAX_SAFE_INTEGER ≤ z ≤ MAX_SAFE_INTEGER.

(** A score is a JavaScript number, a double.  Every safe integer is a
    double, and the [+] of two doubles is their sum rounded to a double: when
    both numbers and their sum are safe integers, [a + b] in JavaScript is
    the sum of integers that [updateScore] is modelled with.  Statements
    about that sum carry this bound. *)
Definition exact_sum (a b : Z) : Prop :=
  safe_integer a ∧ safe_integer b ∧ safe_integer (a + b).

(** The turn cursor indexes into the roster, or it is 0 (as it is in an
    empty room). *)
Definition cursor_ok (r : GameRoom) : Prop :=
  ∃ i, currentTurnIndex r = Num i ∧ (i = 0 ∨ i < length (players r))%nat.

(** The invariant that the data model states for [GameState]. *)
Definition winner_invariant (r : GameRoom) : Prop :=
  (winner (gameState r) ≠ None ↔
     gameOver (gameState r) = true ∧ ∃ p, p ∈ players r ∧ candidate p)
  ∧ (gameOver (gameState r) = true → (∀ p, p ∈ players r → status p = bust) →
     winner (gameState r) = None).

(** A winner is named only in a game that is over. *)
Definition winner_needs_gameOver (gs : GameState) : Prop :=
  winner gs ≠ None → gameOver gs = true.

(** What every handler keeps. *)
Definition room_ok (r : GameRoom) : Prop :=
  cursor_ok r ∧ winner_needs_gameOver (gameState r).

(** What holds between a move and the change of turn. *)
Definition room_ok_nonempty (r : GameRoom) : Prop :=
  room_ok r ∧ players r ≠ [].

(** [triple P m Q]: from a room in [P], [m] does not throw, and its value
    and the room it leaves are in [Q]. *)
Definition triple {A} (P : GameRoom → Prop) (m : M A) (Q : A → GameRoom → Prop) : Prop :=
  ∀ r, P r → ∃ a r', m r = (Ret a, r') ∧ Q a r'.

(** No call of [nextTurn] in [cs], run from [r], meets an empty roster. *)
Fixpoint guarded (cs : list call) (r : GameRoom) : Prop :=
  match cs with
  | [] => True
  | c :: cs => (c = NextTurn → players r ≠ []) ∧ guarded cs (exec (do_call c) r)
  end.

(** [j] is the position of the first active player met going round the
    roster [ps] from position [s]. *)
Definition first_active_from (ps : list Player) (s j : nat) : Prop :=
  ∃ t, (t < length ps)%nat ∧ j = ((s + t) mod length ps)%nat
    ∧ (∃ p, ps !! j = Some p ∧ status p = active)
    ∧ ∀ t' q, (t' < t)%nat → ps !! ((s + t') mod length ps)%nat = Some q →
        status q ≠ active.


(** A status a player can have after having had another, within a round. *)
Definition status_after (before after : PlayerStatus) : Prop :=
  after = before ∨ before = active ∨ (before = held ∧ after = won).

(** ** socketHandler.ts: the registry of rooms

    [rooms] is a [Map] from room ids to rooms: a finite map. *)

#[global] Instance outcome_eq_dec {A} `{EqDecision A} : EqDecision (outcome A).
Proof. solve_decision. Defined.

Definition ROOM_TIMEOUT : Z := 30 * 60 * 1000.

(** The test of [cleanupEmptyRooms] on one room; [now] is [Date.now()]. *)
Definition to_clean (now : Z) : M bool :=
  empty ← isEmpty;
  r ← get;
  mret ((empty : bool)
        || (bool_decide (now - createdAt r > ROOM_TIMEOUT)
            && bool_decide (length (players r) < 2)%nat)).

(** [cleanupEmptyRooms()].  Deleting the entry under the iterator of a
    [Map] is allowed and skips nothing, so the loop is a filter. *)
Definition cleanupEmptyRooms (now : Z) (rooms : gmap string GameRoom)
  : gmap string GameRoom :=
  filter (λ kv, result (to_clean now) kv.2 ≠ Ret true) rooms.

(** [getActiveRoomsCount()] *)
Definition getActiveRoomsCount (rooms : gmap string GameRoom) : nat := size rooms.

(** [handleCreateRoom], once the name is accepted: the room it makes and
    registers.  The identifiers are the two [uuidv4()], [maxPlayers] is the
    parsed [MAX_PLAYERS_PER_ROOM], [joined] and [created] are the clock at
    [new Player] and at [new GameRoom]. *)
Definition createRoom (roomId playerId playerName socketId : string)
    (maxPlayers joined created : Z) : GameRoom :=
  exec (try_catch (addPlayer (newPlayer playerId playerName socketId joined);;
                   getState;; mret ()))
       (newGameRoom roomId maxPlayers created).

(** ** Further predicates: what the handlers keep of a room *)

(** A player id appears at most once in the roster. *)
Definition ids_unique (r : GameRoom) : Prop := NoDup (id <$> players r).

(** The roster does not exceed the capacity. *)
Definition within_capacity (r : GameRoom) : Prop :=
  Z.of_nat (length (players r)) ≤ Z.max 0 (maxPlayers r).


(** The scores a status goes with, for target 18 and a six-sided die. *)
Definition player_ok (p : Player) : Prop :=
  match status p with
  | active | held => 0 ≤ score p ≤ 17
  | won => 0 ≤ score p ≤ 18
  | bust => 19 ≤ score p ≤ 23
  end.

Definition scores_ok (r : GameRoom) : Prop :=
  targetScore (gameState r) = 18 ∧ Forall player_ok (players r).

Ltac run :=
  unfold exec, result, try_catch, mbind, M_bind, mret, M_ret, get, modify, throw in *;
  simpl in *.

(** * Properties *)

(** ** GameState *)

Section GameState.
Implicit Types (gs : GameState) (player p : Player) (players : list Player).

(** How [updateScore] branches, whatever the player and the game are. *)
Lemma updateScore_cases gs player roll :
  let s := score player + roll in
  updateScore gs player roll =
    if bool_decide (s > targetScore gs) then
      ({| su_status := G_bust;
          su_message := name player +:+ " BUSTED with " +:+ pretty s +:+ "!";
          newScore := s |}, gs, set_status bust (set_score s player))
    else if bool_decide (s = targetScore gs) then
      ({| su_status := G_perfect;
          su_message := name player +:+ " hit PERFECT 18! ðŸŽ‰";
          newScore := s |},
       set_winner (Some (id player)) (set_gameOver true gs),
       set_status won (set_score s player))
    else
      ({| su_status := G_playing;
          su_message := name player +:+ " rolled " +:+ pretty roll +:+ ". Score: "
                        +:+ pretty s;
          newScore := s |}, gs, set_score s player).
Proof. reflexivity. Qed.

Lemma filter_length_0 {A} (P : A → Prop) `{!∀ x, Decision (P x)} (l : list A) :
  length (filter P l) = 0%nat ↔ ∀ x, x ∈ l → ¬ P x.
Proof.
  rewrite length_zero_iff_nil. split.
  - intros Hnil x Hx HP. by eapply filter_nil_not_elem_of.
  - intros Hall. induction l as [|a l IH]; [done|].
    rewrite filter_cons. destruct (decide (P a)) as [HP|HP].
    + exfalso. apply (Hall a); [left | done].
    + apply IH. intros x Hx. apply Hall. by right.
Qed.

Lemma determineWinner_gameOver gs players :
  gameOver (determineWinner gs players).1 = gameOver gs
  ∧ gameStarted (determineWinner gs players).1 = gameStarted gs
  ∧ targetScore (determineWinner gs players).1 = targetScore gs.
Proof.
  unfold determineWinner. case_bool_decide; [done|].
  by destruct (reduce _ _).
Qed.

End GameState.

(** C1. For a roll [r] in 1..6 on a player of score [s] (target 18, [s] and
    [s + r] safe integers, so that the addition of JavaScript is exact),
    [updateScore] sets the score to [s + r], which is not below [s]; it
    returns [bust] exactly when [s + r > 18] and then marks the player bust;
    it returns [perfect] exactly when [s + r = 18] and then marks the player
    won, ends the game and names the player the winner; otherwise it returns
    [playing] and leaves the player's status alone. *)
Theorem updateScore_spec (gs gs' : GameState) (player player' : Player)
    (r : Z) (res : ScoreUpdateResult) :
  targetScore gs = 18 → die r → exact_sum (score player) r →
  updateScore gs player r = (res, gs', player') →
  let s := score player in
  score player' = s + r ∧ newScore res = s + r ∧ s ≤ newScore res
  ∧ id player' = id player ∧ name player' = name player
  ∧ (su_status res = G_bust ↔ s + r > 18)
  ∧ (su_status res = G_perfect ↔ s + r = 18)
  ∧ (su_status res = G_playing ↔ s + r < 18)
  ∧ (su_status res = G_bust → status player' = bust ∧ gs' = gs)
  ∧ (su_status res = G_perfect →
       status player' = won ∧ gameOver gs' = true
       ∧ winner gs' = Some (id player)
       ∧ gameStarted gs' = gameStarted gs ∧ targetScore gs' = targetScore gs)
  ∧ (su_status res = G_playing → status player' = status player ∧ gs' = gs).
Proof.
  intros Ht [Hlo Hhi] _ Hrun s. rewrite updateScore_cases, Ht in Hrun.
  fold s in Hrun. repeat case_bool_decide; simplify_eq; simpl;
    repeat split; try done; try lia; try (intros; lia).
Qed.

Lemma updateScore_spec_witness :
  let player := set_score 12 (newPlayer "a" "Alice" "s" 0) in
  su_status (updateScore newGameState player 6).1.1 = G_perfect ↔ 12 + 6 = 18.
Proof.
  intros player.
  assert (Hdie : die 6) by (unfold die; lia).
  assert (Hsafe : exact_sum (score player) 6)
    by (unfold exact_sum, safe_integer, MAX_SAFE_INTEGER; simpl; lia).
  destruct (updateScore_spec newGameState _ player _ 6 _ eq_refl Hdie Hsafe eq_refl)
    as (_ & _ & _ & _ & _ & _ & Hperfect & _).
  exact Hperfect.
Defined.

(** C10. [updateScore] checks neither the player's status nor [gameOver]:
    whatever they are (a bust, held or won player, a game already over, a
    winner already named), the roll is added to the score, and a resulting
    score equal to the target (18) makes this player the winner, replacing
    the previous one.  The score, the roll and their sum are safe integers,
    so that the addition of JavaScript is exact. *)
Theorem updateScore_no_precondition (gs : GameState) (player : Player) (roll : Z) :
  exact_sum (score player) roll →
  let '(res, gs', player') := updateScore gs player roll in
  score player' = score player + roll
  ∧ newScore res = score player + roll
  ∧ (score player + roll = targetScore gs →
       su_status res = G_perfect ∧ winner gs' = Some (id player)
       ∧ gameOver gs' = true ∧ status player' = won).
Proof.
  intros _. rewrite updateScore_cases.
  repeat case_bool_decide; simpl; repeat split; try done; lia.
Qed.

(** On a game of target 18 that is over with winner ["w"], a player who
    held at 12 and receives a 6 becomes the winner. *)
Lemma updateScore_no_precondition_witness :
  let gs := set_winner (Some "w") (set_gameOver true newGameState) in
  let player := set_status held (set_score 12 (newPlayer "a" "Alice" "s" 0)) in
  winner (updateScore gs player 6).1.2 = Some "a"
  ∧ score (updateScore gs player 6).2 = 18.
Proof.
  intros gs player.
  assert (Hsafe : exact_sum (score player) 6)
    by (unfold exact_sum, safe_integer, MAX_SAFE_INTEGER; simpl; lia).
  pose proof (updateScore_no_precondition gs player 6 Hsafe) as Hspec.
  destruct (updateScore gs player 6) as [[res gs'] player'].
  destruct Hspec as (Hscore & _ & Hperfect).
  destruct (Hperfect eq_refl) as (_ & Hwinner & _).
  split; [exact Hwinner | exact Hscore].
Defined.

(** C6. [hold] returns an [error] result exactly when the player is not
    active, and then changes nothing; on an active player it sets the status
    to held and returns [held] with the player's score as [finalScore]. *)
Theorem hold_spec (gs : GameState) (player : Player) :
  let '(res, player') := hold gs player in
  (h_status res = G_error ↔ status player ≠ active)
  ∧ (status player ≠ active → player' = player ∧ finalScore res = None)
  ∧ (status player = active →
       h_status res = G_held ∧ finalScore res = Some (score player)
       ∧ player' = set_status held player
       ∧ status player' = held ∧ score player' = score player).
Proof.
  unfold hold. case_bool_decide as Hst; simpl.
  - repeat split; done.
  - repeat split; done.
Qed.

Lemma hold_spec_witness :
  let player := set_score 12 (newPlayer "a" "Alice" "s" 0) in
  finalScore (hold newGameState player).1 = Some 12
  ∧ (hold newGameState (set_status bust player)).2 = set_status bust player.
Proof.
  intros player. split.
  - pose proof (hold_spec newGameState player) as Hspec.
    destruct (hold newGameState player) as [res player'].
    destruct Hspec as (_ & _ & Hactive).
    destruct (Hactive eq_refl) as (_ & Hfinal & _). exact Hfinal.
  - pose proof (hold_spec newGameState (set_status bust player)) as Hspec.
    destruct (hold newGameState (set_status bust player)) as [res player'].
    destruct Hspec as (_ & Hother & _).
    destruct Hother as [Hsame _]; [done | exact Hsame].
Defined.

(** C5. [checkGameOver] returns true and changes nothing when the game is
    already over; otherwise, when no player is active, it sets [gameOver],
    runs [determineWinner] and returns true; otherwise it returns false and
    changes nothing. *)
Theorem checkGameOver_spec (gs : GameState) (players : list Player) :
  (gameOver gs = true → checkGameOver gs players = (true, gs, players))
  ∧ (gameOver gs = false → (∀ p, p ∈ players → status p ≠ active) →
       checkGameOver gs players =
         (true, (determineWinner (set_gameOver true gs) players).1,
                (determineWinner (set_gameOver true gs) players).2)
       ∧ gameOver (checkGameOver gs players).1.2 = true)
  ∧ (gameOver gs = false → (∃ p, p ∈ players ∧ status p = active) →
       checkGameOver gs players = (false, gs, players)).
Proof.
  unfold checkGameOver. split; [by intros ->|]. split.
  - intros -> Hnone. rewrite bool_decide_eq_true_2 by by apply filter_length_0.
    pose proof (determineWinner_gameOver (set_gameOver true gs) players) as (Hover & _).
    destruct (determineWinner _ _) as [gs' ps'] eqn:Hdw. by simpl in *.
  - intros -> (p & Hin & Hact). rewrite bool_decide_eq_false_2; [done|].
    rewrite filter_length_0. intros Hnone. by apply (Hnone p).
Qed.

Lemma checkGameOver_spec_witness :
  let p := newPlayer "a" "Alice" "s" 0 in
  checkGameOver (set_gameOver true newGameState) [p]
    = (true, set_gameOver true newGameState, [p])
  ∧ (checkGameOver newGameState [set_status bust p]).1.1 = true
  ∧ checkGameOver newGameState [p] = (false, newGameState, [p]).
Proof.
  intros p. split; [|split].
  - exact (proj1 (checkGameOver_spec (set_gameOver true newGameState) [p]) eq_refl).
  - destruct (proj1 (proj2 (checkGameOver_spec newGameState [set_status bust p])) eq_refl)
      as [Heq _].
    + intros q Hq. apply list_elem_of_singleton in Hq. by subst q.
    + by rewrite Heq.
  - apply (proj2 (proj2 (checkGameOver_spec newGameState [p])) eq_refl).
    exists p. split; [apply list_elem_of_singleton|]; done.
Defined.

(** *** determineWinner *)

Section determineWinner.
Implicit Types (gs : GameState) (p q w : Player) (players l : list Player).

Lemma validPlayers_snoc l p :
  validPlayers (l ++ [p]) =
    validPlayers l ++ (if decide (candidate p) then [(length l, p)] else []).
Proof.
  unfold validPlayers. rewrite imap_app, filter_app. f_equal.
  simpl. rewrite Nat.add_0_r, filter_cons, filter_nil. simpl.
  by destruct (decide (candidate p)).
Qed.

Lemma reduce_snoc {A} (f : A → A → A) (k : list A) (x : A) :
  reduce f (k ++ [x]) =
    Some (match reduce f k with Some a => f a x | None => x end).
Proof.
  destruct k as [|a k]; [done|]. simpl. by rewrite foldl_snoc.
Qed.

(** What the [reduce] of [determineWinner] picks: the first of the
    candidates of greatest score. *)
Lemma reduce_validPlayers l :
  match reduce better (validPlayers l) with
  | None => ∀ p, p ∈ l → ¬ candidate p
  | Some (i, w) =>
      l !! i = Some w ∧ candidate w
      ∧ ∀ j q, l !! j = Some q → candidate q →
          score q ≤ score w ∧ ((j < i)%nat → score q < score w)
  end.
Proof.
  induction l as [|p l IH] using rev_ind.
  { simpl. intros p Hp. by apply elem_of_nil in Hp. }
  rewrite validPlayers_snoc. destruct (decide (candidate p)) as [Hp|Hp].
  - rewrite reduce_snoc. destruct (reduce better (validPlayers l)) as [[i w]|].
    + destruct IH as (Hi & Hw & Hmax). unfold better. simpl.
      pose proof (lookup_lt_Some _ _ _ Hi) as Hlt.
      case_bool_decide as Hgt.
      * split; [by rewrite lookup_app_r, Nat.sub_diag by lia|]. split; [done|].
        intros j q Hj Hq. apply lookup_app_Some in Hj as [Hj|[Hge Hj]].
        -- destruct (Hmax j q Hj Hq). lia.
        -- apply list_lookup_singleton_Some in Hj as [_ <-]. lia.
      * split; [by rewrite lookup_app_l by lia|]. split; [done|].
        intros j q Hj Hq. apply lookup_app_Some in Hj as [Hj|[Hge Hj]].
        -- by apply Hmax.
        -- apply list_lookup_singleton_Some in Hj as [_ <-]. lia.
    + split; [by rewrite lookup_app_r, Nat.sub_diag by lia|]. split; [done|].
      intros j q Hj Hq. apply lookup_app_Some in Hj as [Hj|[Hge Hj]].
      * exfalso. apply (IH q); [|done]. by eapply list_elem_of_lookup_2.
      * apply list_lookup_singleton_Some in Hj as [_ <-]. lia.
  - rewrite app_nil_r. destruct (reduce better (validPlayers l)) as [[i w]|].
    + destruct IH as (Hi & Hw & Hmax).
      pose proof (lookup_lt_Some _ _ _ Hi) as Hlt.
      split; [by rewrite lookup_app_l by lia|]. split; [done|].
      intros j q Hj Hq. apply lookup_app_Some in Hj as [Hj|[Hge Hj]].
      * by apply Hmax.
      * apply list_lookup_singleton_Some in Hj as [_ <-]. done.
    + intros q Hq. apply elem_of_app in Hq as [Hq|Hq]; [by apply IH|].
      apply list_elem_of_singleton in Hq. by subst q.
Qed.

Lemma determineWinner_cases gs players :
  determineWinner gs players =
    match reduce better (validPlayers players) with
    | None => (set_winner None gs, players)
    | Some w => (set_winner (Some (id w.2)) gs, alter (set_status won) w.1 players)
    end.
Proof.
  unfold determineWinner.
  destruct (validPlayers players) as [|ip k] eqn:Hv; [done|].
  by rewrite bool_decide_eq_false_2.
Qed.

End determineWinner.

(** C2. The candidates of [determineWinner] are the players that are held or
    won.  Without a candidate the winner is set to none and no player
    changes.  Otherwise the winner is the id of the candidate [w], at
    position [i], whose score no candidate exceeds and every candidate
    before it is strictly below (a tie goes to the first), and exactly that
    player's status is set to won.  Two held players at 16 give the first;
    two bust players give none. *)
Theorem determineWinner_spec (gs : GameState) (players : list Player) :
  ((∀ p, p ∈ players → ¬ candidate p) →
     determineWinner gs players = (set_winner None gs, players))
  ∧ ((∃ p, p ∈ players ∧ candidate p) →
     ∃ i w, players !! i = Some w ∧ candidate w
       ∧ (∀ j q, players !! j = Some q → candidate q → score q ≤ score w)
       ∧ (∀ j q, players !! j = Some q → candidate q → (j < i)%nat →
            score q < score w)
       ∧ determineWinner gs players =
           (set_winner (Some (id w)) gs, alter (set_status won) i players)
       ∧ alter (set_status won) i players !! i = Some (set_status won w))
  ∧ (∀ a b, status a = held → score a = 16 → status b = held → score b = 16 →
       winner (determineWinner gs [a; b]).1 = Some (id a))
  ∧ (∀ a b, status a = bust → status b = bust →
       winner (determineWinner gs [a; b]).1 = None).
Proof.
  split; [|split; [|split]].
  - intros Hnone. rewrite determineWinner_cases.
    pose proof (reduce_validPlayers players) as Hred.
    destruct (reduce better (validPlayers players)) as [[i w]|]; [|done].
    destruct Hred as (Hi & Hw & _). exfalso. apply (Hnone w); [|done].
    by eapply list_elem_of_lookup_2.
  - intros (p & Hin & Hp). rewrite determineWinner_cases.
    pose proof (reduce_validPlayers players) as Hred.
    destruct (reduce better (validPlayers players)) as [[i w]|];
      [|by destruct (Hred p Hin)].
    destruct Hred as (Hi & Hw & Hmax). exists i, w. simpl.
    repeat split; try done.
    + intros j q Hj Hq. apply (Hmax j q Hj Hq).
    + intros j q Hj Hq. apply (Hmax j q Hj Hq).
    + by rewrite list_lookup_alter_eq, Hi.
  - intros a b Ha Hsa Hb Hsb. unfold determineWinner, validPlayers. simpl.
    rewrite !filter_cons, filter_nil. simpl.
    rewrite !decide_True by (by left). simpl. unfold better. simpl.
    rewrite bool_decide_eq_false_2 by lia. done.
  - intros a b Ha Hb. unfold determineWinner, validPlayers. simpl.
    rewrite !filter_cons, filter_nil. simpl.
    rewrite !decide_False; [done| |];
      unfold candidate; simpl; intros [?|?]; congruence.
Qed.

Lemma determineWinner_spec_witness :
  let a := set_status held (set_score 16 (newPlayer "A" "Alice" "s1" 0)) in
  let b := set_status held (set_score 16 (newPlayer "B" "Bob" "s2" 0)) in
  let c := set_status bust (set_score 19 (newPlayer "A" "Alice" "s1" 0)) in
  let d := set_status bust (set_score 20 (newPlayer "B" "Bob" "s2" 0)) in
  winner (determineWinner newGameState [a; b]).1 = Some "A"
  ∧ determineWinner newGameState [c; d] = (newGameState, [c; d]).
Proof.
  intros a b c d. split.
  - exact (proj1 (proj2 (proj2 (determineWinner_spec newGameState [])))
             a b eq_refl eq_refl eq_refl eq_refl).
  - apply (proj1 (determineWinner_spec newGameState [c; d])).
    intros p Hp [Hs|Hs];
      apply elem_of_cons in Hp as [->|Hp]; try done;
      apply list_elem_of_singleton in Hp; by subst p.
Defined.

(** ** GameRoom *)

Section GameRoom.
Implicit Types (r : GameRoom) (p q player : Player).

Lemma set_gameState_same r : set_gameState (gameState r) r = r.
Proof. by destruct r. Qed.

Lemma set_currentTurnIndex_same r :
  set_currentTurnIndex (currentTurnIndex r) r = r.
Proof. by destruct r. Qed.

Lemma start_changes (gs : GameState) :
  gameStarted gs = false → start gs ≠ gs.
Proof. intros Hs Heq. rewrite <- Heq in Hs. done. Qed.

(** [removePlayer] on a roster that has the id, statement by statement. *)
Lemma removePlayer_found (playerId : string) r i p :
  list_find (λ p, id p = playerId) (players r) = Some (i, p) →
  let r1 := set_players (delete i (players r)) r in
  let r2 := if num_ge (currentTurnIndex r1) (length (players r1))
            then set_currentTurnIndex (Num 0) r1 else r1 in
  let r3 := if bool_decide (length (players r2) < 2)%nat
            then set_gameState (set_gameOver true (gameState r2)) r2 else r2 in
  removePlayer playerId r = (Ret true, r3).
Proof.
  intros Hfind. unfold removePlayer. run. rewrite Hfind. simpl.
  destruct (num_ge _ _); simpl; by destruct (bool_decide _).
Qed.

End GameRoom.

(** C7. [addPlayer] returns false and leaves the room as it is when the
    roster is at capacity or holds a player of the same id.  Otherwise it
    returns true, the player is appended at the end of the roster, and the
    game state is [start()]ed exactly when the roster now has at least two
    players and the game had not started (a call that is visible: it changes
    the game state); nothing else changes. *)
Theorem addPlayer_spec (player : Player) (r : GameRoom) :
  let full := maxPlayers r ≤ Z.of_nat (length (players r)) in
  let present := ∃ p, p ∈ players r ∧ id p = id player in
  let starts := (2 ≤ length (players r) + 1)%nat ∧ gameStarted (gameState r) = false in
  (full ∨ present → addPlayer player r = (Ret false, r))
  ∧ (¬ full → ¬ present →
       ∃ gs, addPlayer player r =
               (Ret true, set_gameState gs (set_players (players r ++ [player]) r))
         ∧ (starts → gs = start (gameState r) ∧ gs ≠ gameState r)
         ∧ (¬ starts → gs = gameState r)).
Proof.
  intros full present starts. unfold addPlayer. run. split.
  - intros [Hfull|(p & Hin & Hid)].
    + rewrite bool_decide_eq_true_2; [done|]. unfold full in Hfull. lia.
    + case_bool_decide; [done|].
      destruct (list_find _ _) eqn:Hfind; [done|].
      apply list_find_None in Hfind. rewrite Forall_forall in Hfind.
      by destruct (Hfind p Hin).
  - intros Hfull Hpresent.
    rewrite bool_decide_eq_false_2 by (unfold full in Hfull; lia).
    destruct (list_find _ _) as [[i p]|] eqn:Hfind.
    { apply list_find_Some in Hfind as (Hi & Hid & _). destruct Hpresent.
      exists p. split; [by eapply list_elem_of_lookup_2 | done]. }
    rewrite length_app. simpl.
    destruct (gameStarted (gameState r)) eqn:Hst.
    + rewrite andb_false_r. exists (gameState r). split; [|split].
      * by rewrite (set_gameState_same (set_players _ r)).
      * by intros [_ ?].
      * done.
    + rewrite andb_true_r. case_bool_decide as Hlen.
      * exists (start (gameState r)). split; [done|]. split; [|by intros []].
        intros _. split; [done|]. by apply start_changes.
      * exists (gameState r). split; [|split].
        -- by rewrite (set_gameState_same (set_players _ r)).
        -- by intros [? _].
        -- done.
Qed.

Lemma addPlayer_spec_witness :
  let a := newPlayer "A" "Alice" "s1" 0 in
  let r := exec (addPlayer a) (newGameRoom "room" 1 0) in
  addPlayer (newPlayer "B" "Bob" "s2" 0) r = (Ret false, r)
  ∧ ∃ gs, addPlayer a (newGameRoom "room" 4 0) =
      (Ret true, set_gameState gs (set_players [a] (newGameRoom "room" 4 0))).
Proof.
  intros a r. split.
  - apply (proj1 (addPlayer_spec (newPlayer "B" "Bob" "s2" 0) r)).
    left. simpl. lia.
  - destruct (proj2 (addPlayer_spec a (newGameRoom "room" 4 0))) as (gs & Hrun & _).
    + simpl. lia.
    + intros (p & Hp & _). by apply elem_of_nil in Hp.
    + by exists gs.
Defined.

(** C8. [removePlayer] returns false and changes nothing when no roster
    member has the id.  Otherwise it returns true and removes the first
    member of that id, the others keeping their order and their records; a
    cursor that is at or past the new length becomes 0, any other cursor
    stays; [gameOver] is set when fewer than two players remain and the game
    state is otherwise untouched: the winner in particular is not
    recomputed. *)
Theorem removePlayer_spec (playerId : string) (r : GameRoom) :
  ((∀ p, p ∈ players r → id p ≠ playerId) →
     removePlayer playerId r = (Ret false, r))
  ∧ (∀ l1 p l2,
       players r = l1 ++ p :: l2 → id p = playerId →
       (∀ q, q ∈ l1 → id q ≠ playerId) →
       let r' := exec (removePlayer playerId) r in
       result (removePlayer playerId) r = Ret true
       ∧ players r' = l1 ++ l2
       ∧ (∀ c, currentTurnIndex r = Num c → (length (l1 ++ l2) ≤ c)%nat →
            currentTurnIndex r' = Num 0)
       ∧ (∀ c, currentTurnIndex r = Num c → (c < length (l1 ++ l2))%nat →
            currentTurnIndex r' = Num c)
       ∧ (currentTurnIndex r = NaN → currentTurnIndex r' = NaN)
       ∧ ((length (l1 ++ l2) < 2)%nat →
            gameState r' = set_gameOver true (gameState r))
       ∧ ((2 ≤ length (l1 ++ l2))%nat → gameState r' = gameState r)
       ∧ winner (gameState r') = winner (gameState r)
       ∧ roomId r' = roomId r ∧ maxPlayers r' = maxPlayers r
       ∧ createdAt r' = createdAt r).
Proof.
  split.
  - intros Hnone. apply Forall_forall, (list_find_None (λ p, id p = playerId)) in Hnone.
    unfold removePlayer. run. by rewrite Hnone.
  - intros l1 p l2 Hl Hid Hl1.
    assert (list_find (λ p, id p = playerId) (players r) = Some (length l1, p))
      as Hfind.
    { apply list_find_Some. rewrite Hl. split; [|split; [done|]].
      - by rewrite lookup_app_r, Nat.sub_diag by lia.
      - intros j q Hj Hlt. rewrite lookup_app_l in Hj by lia.
        apply Hl1. by eapply list_elem_of_lookup_2. }
    cbv zeta. unfold exec, result. rewrite (removePlayer_found _ _ _ _ Hfind).
    rewrite Hl, delete_middle. simpl.
    destruct (currentTurnIndex r) as [c|] eqn:Hc; simpl;
      repeat case_bool_decide; simpl; rewrite ?Hc; repeat split;
      try done; try congruence; try lia; intros; simplify_eq; simpl in *; lia.
Qed.

Lemma removePlayer_spec_witness :
  let a := newPlayer "A" "Alice" "s1" 0 in
  let b := newPlayer "B" "Bob" "s2" 0 in
  let r := exec (addPlayer b) (exec (addPlayer a) (newGameRoom "room" 4 0)) in
  removePlayer "C" r = (Ret false, r)
  ∧ players (exec (removePlayer "B") r) = [a]
  ∧ gameOver (gameState (exec (removePlayer "B") r)) = true.
Proof.
  intros a b r. split; [|split].
  - apply (proj1 (removePlayer_spec "C" r)).
    intros p Hp. apply elem_of_cons in Hp as [->|Hp]; [done|].
    apply list_elem_of_singleton in Hp. by subst p.
  - destruct (proj2 (removePlayer_spec "B" r) [a] b [] eq_refl eq_refl)
      as (_ & Hps & _); [|exact Hps].
    intros q Hq. apply list_elem_of_singleton in Hq. by subst q.
  - destruct (proj2 (removePlayer_spec "B" r) [a] b [] eq_refl eq_refl)
      as (_ & _ & _ & _ & _ & Hover & _).
    + intros q Hq. apply list_elem_of_singleton in Hq. by subst q.
    + rewrite Hover; [done | simpl; lia].
Defined.

(** *** The turn cursor *)

Section cursor.
Implicit Types (r : GameRoom) (p q : Player) (i j n : nat).
Local Open Scope nat_scope.

Lemma num_rem_succ i n :
  n ≠ 0 → num_rem (num_succ (Num i)) n = Num ((i + 1) mod n).
Proof. by destruct n. Qed.

Lemma nextTurn_Num r i :
  currentTurnIndex r = Num i → players r ≠ [] →
  nextTurn r = (Ret (), set_currentTurnIndex
                          (Num ((i + 1) mod length (players r))) r).
Proof.
  intros Hi Hne. unfold nextTurn. run. rewrite Hi, num_rem_succ; [done|].
  by rewrite length_zero_iff_nil.
Qed.

Lemma add_mod_succ i t n :
  (((i + 1) mod n + t) mod n = (i + S t) mod n)%nat.
Proof.
  rewrite Nat.Div0.add_mod_idemp_l. f_equal. lia.
Qed.

(** The loop of [getCurrentPlayer], from a cursor inside the roster. *)
Lemma getCurrentPlayer_loop_spec fuel : ∀ r i,
  currentTurnIndex r = Num i → (i < length (players r))%nat →
  match getCurrentPlayer_loop fuel r with
  | (Ret (Some (j, p)), r') =>
      r' = set_currentTurnIndex (Num j) r
      ∧ players r !! j = Some p ∧ status p = active
  | (Ret None, r') =>
      r' = set_currentTurnIndex (Num ((i + fuel) mod length (players r))) r
      ∧ ∀ t q, (t < fuel)%nat →
          players r !! ((i + t) mod length (players r)) = Some q →
          status q ≠ active
  | (Throw, _) => False
  end.
Proof.
  induction fuel as [|fuel IH]; intros r i Hi Hlt.
  { simpl. run. rewrite Nat.add_0_r, Nat.mod_small, <- Hi by done.
    split; [by rewrite set_currentTurnIndex_same | intros; lia]. }
  simpl. run. rewrite Hi. simpl.
  destruct (lookup_lt_is_Some_2 _ _ Hlt) as [p Hp]. rewrite Hp. simpl.
  case_bool_decide as Hact.
  { rewrite <- Hi. by rewrite set_currentTurnIndex_same. }
  assert (length (players r) ≠ 0) as Hn by lia.
  rewrite Hi, num_rem_succ by done.
  set (r1 := set_currentTurnIndex _ r).
  pose proof (IH r1 ((i + 1) mod length (players r)) eq_refl
                (Nat.mod_upper_bound _ _ Hn)) as IH1.
  simpl in IH1.
  destruct (getCurrentPlayer_loop fuel r1) as [[[[j q]|]|] r'].
  - destruct IH1 as (-> & Hj & Hq). by destruct r.
  - destruct IH1 as (-> & Hnone). split.
    + rewrite add_mod_succ. by destruct r.
    + intros t q Ht Hq. destruct t as [|t].
      * rewrite Nat.add_0_r, Nat.mod_small in Hq by done. congruence.
      * apply (Hnone t q); [lia|]. by rewrite add_mod_succ.
  - done.
Qed.

(** A full lap visits every position. *)
Lemma lap_covers i j n :
  (i < n)%nat → (j < n)%nat → ∃ t, (t < n)%nat ∧ ((i + t) mod n = j)%nat.
Proof.
  intros Hi Hj. destruct (decide (i ≤ j)%nat).
  - exists (j - i)%nat. split; [lia|].
    replace (i + (j - i))%nat with j by lia. by apply Nat.mod_small.
  - exists (j + n - i)%nat. split; [lia|]. symmetry.
    apply (Nat.mod_unique _ _ 1); lia.
Qed.

Lemma lap_returns i n : (i < n)%nat → ((i + n) mod n = i)%nat.
Proof. intros Hi. symmetry. apply (Nat.mod_unique _ _ 1); lia. Qed.

(** [getCurrentPlayer] from a good cursor: it does not throw; it returns a
    reference to an active roster member, the cursor resting on it, or
    [null] when no member is active, the cursor back where it was. *)
Lemma getCurrentPlayer_spec r :
  cursor_ok r →
  match getCurrentPlayer r with
  | (Ret (Some (j, p)), r') =>
      r' = set_currentTurnIndex (Num j) r
      ∧ players r !! j = Some p ∧ status p = active
  | (Ret None, r') => r' = r ∧ ∀ q, q ∈ players r → status q ≠ active
  | (Throw, _) => False
  end.
Proof.
  intros (i & Hi & Hlt). unfold getCurrentPlayer. run.
  case_bool_decide as Hlen.
  { split; [done|]. intros q Hq. apply length_zero_iff_nil in Hlen.
    rewrite Hlen in Hq. by apply elem_of_nil in Hq. }
  assert (i < length (players r))%nat as Hi' by lia.
  pose proof (getCurrentPlayer_loop_spec (length (players r)) r i Hi Hi') as Hloop.
  destruct (getCurrentPlayer_loop _ r) as [[[[j q]|]|] r']; [done| |done].
  destruct Hloop as (-> & Hnone). rewrite lap_returns, <- Hi by done.
  split; [by rewrite set_currentTurnIndex_same|].
  intros q Hq. apply list_elem_of_lookup in Hq as [j Hj].
  destruct (lap_covers i j (length (players r)) Hi') as (t & Ht & <-);
    [by eapply lookup_lt_Some|].
  by apply (Hnone t q).
Qed.

(** With players in the room and a cursor that is not good,
    [getCurrentPlayer] throws at once. *)
Lemma getCurrentPlayer_bad_cursor r :
  players r ≠ [] → ¬ cursor_ok r → getCurrentPlayer r = (Throw, r).
Proof.
  intros Hne Hbad. unfold getCurrentPlayer. run.
  rewrite bool_decide_eq_false_2 by by rewrite length_zero_iff_nil.
  destruct (players r) as [|p0 l] eqn:Hps; [done|]. simpl. run.
  rewrite Hps. destruct (currentTurnIndex r) as [i|] eqn:Hi; [|done]. simpl.
  destruct ((p0 :: l) !! i) as [p|] eqn:Hp; [|done].
  destruct Hbad. exists i. split; [done|]. right. rewrite Hps.
  by eapply lookup_lt_Some.
Qed.

Lemma cursor_ok_or_not r : cursor_ok r ∨ ¬ cursor_ok r.
Proof.
  unfold cursor_ok. destruct (currentTurnIndex r) as [i|].
  - destruct (decide (i = 0 ∨ i < length (players r))) as [Hi|Hi].
    + left. by exists i.
    + right. intros (i' & [= <-] & Hi'). done.
  - right. by intros (i & [=] & _).
Qed.

Lemma getCurrentPlayer_empty r :
  players r = [] → getCurrentPlayer r = (Ret None, r).
Proof. intros Hnil. unfold getCurrentPlayer. run. by rewrite Hnil. Qed.

(** A second call in a row returns what the first returned and leaves the
    room as the first left it, in every room. *)
Lemma getCurrentPlayer_idem r :
  getCurrentPlayer (exec getCurrentPlayer r)
    = (result getCurrentPlayer r, exec getCurrentPlayer r).
Proof.
  unfold exec, result.
  destruct (decide (players r = [])) as [Hnil|Hne].
  { rewrite (getCurrentPlayer_empty r Hnil). simpl.
    by rewrite (getCurrentPlayer_empty r Hnil). }
  destruct (cursor_ok_or_not r) as [Hok|Hbad].
  - pose proof (getCurrentPlayer_spec r Hok) as Hspec.
    destruct (getCurrentPlayer r) as [[[[j p]|]|] r'] eqn:Hrun; simpl.
    + destruct Hspec as (-> & Hj & Hp).
      unfold getCurrentPlayer. run.
      rewrite bool_decide_eq_false_2 by by rewrite length_zero_iff_nil.
      destruct (players r) as [|p0 l] eqn:Hps; [done|]. simpl. run.
      rewrite Hps, Hj. simpl. by rewrite bool_decide_eq_true_2.
    + by destruct Hspec as (-> & _).
    + done.
  - rewrite (getCurrentPlayer_bad_cursor r Hne Hbad). simpl.
    by rewrite (getCurrentPlayer_bad_cursor r Hne Hbad).
Qed.

End cursor.

(** *** Rules for [triple] *)

Section triple.
Context {A B : Type}.
Implicit Types (P : GameRoom → Prop) (r : GameRoom).

Lemma triple_ret P (a : A) : triple P (mret a) (λ _, P).
Proof. intros r HP. by exists a, r. Qed.

Lemma triple_bind P (m : M A) (Q : A → GameRoom → Prop) (k : A → M B)
    (R : B → GameRoom → Prop) :
  triple P m Q → (∀ a, triple (Q a) (k a) R) → triple P (m ≫= k) R.
Proof.
  intros Hm Hk r HP. destruct (Hm r HP) as (a & r1 & Hrun & HQ).
  destruct (Hk a r1 HQ) as (b & r2 & Hrun2 & HR).
  exists b, r2. run. by rewrite Hrun.
Qed.

Lemma triple_weaken P P' (m : M A) (Q Q' : A → GameRoom → Prop) :
  triple P' m Q' → (∀ r, P r → P' r) → (∀ a r, Q' a r → Q a r) →
  triple P m Q.
Proof.
  intros Hm HP HQ r Hr. destruct (Hm r (HP r Hr)) as (a & r' & Hrun & Hpost).
  exists a, r'. split; [done|]. by apply HQ.
Qed.

(** [get] hands the room over, so what follows may be proved for the room
    it runs in. *)
Lemma triple_get P (k : GameRoom → M A) (Q : A → GameRoom → Prop) :
  (∀ r0, triple (λ r, r = r0 ∧ P r) (k r0) Q) → triple P (get ≫= k) Q.
Proof. intros Hk r HP. run. by apply (Hk r r). Qed.

End triple.

Lemma triple_try_catch P (m : M unit) (Q : unit → GameRoom → Prop) :
  triple P m Q → triple P (try_catch m) Q.
Proof.
  intros Hm r HP. destruct (Hm r HP) as (a & r' & Hrun & HQ).
  exists a, r'. run. by rewrite Hrun.
Qed.

Lemma triple_exec {A} P (m : M A) (Q : GameRoom → Prop) r :
  triple P m (λ _, Q) → P r → Q (exec m r).
Proof.
  intros Hm HP. destruct (Hm r HP) as (a & r' & Hrun & HQ).
  unfold exec. by rewrite Hrun.
Qed.

(** *** What the game state methods keep *)

Section keeps.
Implicit Types (gs : GameState) (p q cur : Player) (ps : list Player)
  (r : GameRoom).

Lemma start_ok gs : winner_needs_gameOver (start gs).
Proof. by intros Hw. Qed.

Lemma reset_ok gs : winner_needs_gameOver (reset gs).
Proof. by intros Hw. Qed.

Lemma set_gameOver_ok gs : winner_needs_gameOver (set_gameOver true gs).
Proof. by intros Hw. Qed.

Lemma updateScore_ok gs p roll :
  winner_needs_gameOver gs → winner_needs_gameOver (updateScore gs p roll).1.2.
Proof.
  intros Hgs. rewrite updateScore_cases. by repeat case_bool_decide.
Qed.

Lemma determineWinner_length gs ps :
  length (determineWinner gs ps).2 = length ps.
Proof.
  rewrite determineWinner_cases. destruct (reduce _ _); [|done].
  simpl. apply length_alter.
Qed.

Lemma checkGameOver_ok gs ps :
  winner_needs_gameOver gs →
  winner_needs_gameOver (checkGameOver gs ps).1.2
  ∧ length (checkGameOver gs ps).2 = length ps.
Proof.
  intros Hgs. unfold checkGameOver.
  destruct (gameOver gs) eqn:Hover; [done|].
  case_bool_decide; [|done].
  pose proof (determineWinner_gameOver (set_gameOver true gs) ps) as (Hg & _).
  pose proof (determineWinner_length (set_gameOver true gs) ps) as Hlen.
  destruct (determineWinner _ _) as [gs' ps']. simpl in *.
  split; [|done]. by intros _.
Qed.

Lemma cursor_ok_same_length r r' :
  currentTurnIndex r' = currentTurnIndex r →
  length (players r') = length (players r) →
  cursor_ok r → cursor_ok r'.
Proof.
  intros Hc Hl (i & Hi & Hlt). exists i. by rewrite Hc, Hl.
Qed.

End keeps.

(** *** What the room methods and the handlers keep *)

Section room_keeps.
Implicit Types (gs : GameState) (p q cur player : Player) (r : GameRoom).

Lemma getCurrentPlayer_ok :
  triple room_ok getCurrentPlayer
    (λ o r, room_ok r ∧ ∀ i cur, o = Some (i, cur) → players r !! i = Some cur).
Proof.
  intros r [Hc Hw]. pose proof (getCurrentPlayer_spec r Hc) as Hspec.
  destruct (getCurrentPlayer r) as [[[[j p]|]|] r']; [| |done].
  - destruct Hspec as (-> & Hj & Hp). eexists _, _. split; [done|].
    split; [split; [|done]|].
    + exists j. split; [done|]. right. by eapply lookup_lt_Some.
    + by intros i cur [= <- <-].
  - destruct Hspec as (-> & _). eexists _, _. by repeat split.
Qed.

(** [getCurrentPlayer] moves nothing but the cursor. *)
Lemma getCurrentPlayer_frame r :
  players (exec getCurrentPlayer r) = players r
  ∧ gameState (exec getCurrentPlayer r) = gameState r
  ∧ roomId (exec getCurrentPlayer r) = roomId r.
Proof.
  unfold exec. destruct (decide (players r = [])) as [Hnil|Hne].
  { by rewrite (getCurrentPlayer_empty r Hnil). }
  destruct (cursor_ok_or_not r) as [Hok|Hbad].
  - pose proof (getCurrentPlayer_spec r Hok) as Hspec.
    destruct (getCurrentPlayer r) as [[[[j p]|]|] r']; [| |done].
    + by destruct Hspec as (-> & _).
    + by destruct Hspec as (-> & _).
  - by rewrite (getCurrentPlayer_bad_cursor r Hne Hbad).
Qed.

Lemma getCurrentPlayer_ok_nonempty :
  triple room_ok_nonempty getCurrentPlayer (λ _, room_ok_nonempty).
Proof.
  intros r [Hok Hne]. destruct (getCurrentPlayer_ok r Hok) as (o & r' & Hrun & Hr' & _).
  exists o, r'. split; [done|]. split; [done|].
  pose proof (getCurrentPlayer_frame r) as (Hps & _).
  unfold exec in Hps. rewrite Hrun in Hps. simpl in Hps. by rewrite Hps.
Qed.

Lemma getState_ok : triple room_ok getState (λ _, room_ok).
Proof.
  unfold getState. apply triple_get. intros r0.
  eapply triple_bind.
  { eapply triple_weaken; [apply getCurrentPlayer_ok| |]; [by intros r [_ ?]|].
    intros a r Hr. exact (proj1 Hr). }
  intros cur. apply triple_get. intros r1. simpl.
  eapply triple_weaken; [apply (triple_ret room_ok)| |];
    [by intros r [_ ?] | intros a r Hr; exact Hr].
Qed.

Lemma getState_ok_nonempty :
  triple room_ok_nonempty getState (λ _, room_ok_nonempty).
Proof.
  unfold getState. apply triple_get. intros r0.
  eapply triple_bind.
  { eapply triple_weaken; [apply getCurrentPlayer_ok_nonempty| |];
      [by intros r [_ ?]|]. intros a r Hr. exact Hr. }
  intros cur. apply triple_get. intros r1. simpl.
  eapply triple_weaken; [apply (triple_ret room_ok_nonempty)| |];
    [by intros r [_ ?] | intros a r Hr; exact Hr].
Qed.

Lemma addPlayer_ok player : triple room_ok (addPlayer player) (λ _, room_ok).
Proof.
  intros r Hok. pose proof Hok as [(i & Hi & Hlt) Hw]. unfold addPlayer. run.
  case_bool_decide; [by eexists _, _|].
  destruct (list_find _ _); [by eexists _, _|].
  assert (cursor_ok (set_players (players r ++ [player]) r)) as Hc.
  { exists i. split; [done|]. simpl. rewrite length_app. simpl. lia. }
  destruct (_ && _); simpl; eexists _, _; (split; [done|]); split; try done.
  apply start_ok.
Qed.

Lemma removePlayer_ok playerId :
  triple room_ok (removePlayer playerId) (λ _, room_ok).
Proof.
  intros r [(i & Hi & Hlt) Hw].
  destruct (list_find (λ p, id p = playerId) (players r)) as [[k p]|] eqn:Hfind.
  - rewrite (removePlayer_found _ _ _ _ Hfind). eexists _, _. split; [done|].
    apply list_find_Some in Hfind as (Hk & _).
    pose proof (length_delete (players r) k (mk_is_Some _ _ Hk)) as Hlen.
    pose proof (lookup_lt_Some _ _ _ Hk) as Hklt.
    simpl. rewrite Hi. simpl.
    split.
    + case_bool_decide as Hge; simpl; case_bool_decide; simpl;
        first [ exists 0%nat; split; [reflexivity | by left]
              | exists i; split; [exact Hi | simpl; lia] ].
    + repeat case_bool_decide; simpl; try done; apply set_gameOver_ok.
  - unfold removePlayer. run. rewrite Hfind. eexists _, _. split; [done|].
    split; [by exists i | done].
Qed.

Lemma resetGame_ok : triple room_ok resetGame (λ _, room_ok).
Proof.
  intros r _. unfold resetGame. run.
  rewrite length_fmap. case_bool_decide; eexists _, _; (split; [done|]); split.
  - exists 0%nat. split; [done|]. by left.
  - apply start_ok.
  - exists 0%nat. split; [done|]. by left.
  - apply reset_ok.
Qed.

Lemma nextTurn_ok : triple room_ok_nonempty nextTurn (λ _, room_ok_nonempty).
Proof.
  intros r [[(i & Hi & Hlt) Hw] Hne]. rewrite (nextTurn_Num r i Hi Hne).
  eexists _, _. split; [done|]. split; [split|]; try done.
  eexists. split; [done|]. right. simpl.
  apply Nat.mod_upper_bound. by rewrite length_zero_iff_nil.
Qed.

Lemma insert_nonempty (ps : list Player) i cur cur' :
  ps !! i = Some cur → <[i:=cur']> ps ≠ [].
Proof.
  intros Hi Hnil%(f_equal length). rewrite length_insert in Hnil.
  apply lookup_lt_Some in Hi. simpl in Hnil. lia.
Qed.

Lemma room_updateScore_ok i cur roll :
  triple (λ r, room_ok r ∧ players r !! i = Some cur)
    (room_updateScore i cur roll) (λ _, room_ok_nonempty).
Proof.
  intros r [[Hc Hw] Hi]. unfold room_updateScore. run.
  pose proof (updateScore_ok (gameState r) cur roll Hw) as Hw'.
  destruct (updateScore (gameState r) cur roll) as [[res gs'] cur'].
  simpl in *. eexists _, _. split; [done|]. split; [split|]; simpl.
  - eapply cursor_ok_same_length; [| |exact Hc]; [done|]. simpl.
    by rewrite length_insert.
  - done.
  - by eapply insert_nonempty.
Qed.

Lemma room_hold_ok i cur :
  triple (λ r, room_ok r ∧ players r !! i = Some cur)
    (room_hold i cur) (λ _, room_ok_nonempty).
Proof.
  intros r [[Hc Hw] Hi]. unfold room_hold. run.
  destruct (hold (gameState r) cur) as [res cur'].
  simpl in *. eexists _, _. split; [done|]. split; [split|]; simpl.
  - eapply cursor_ok_same_length; [| |exact Hc]; [done|]. simpl.
    by rewrite length_insert.
  - done.
  - by eapply insert_nonempty.
Qed.

Lemma room_checkGameOver_ok :
  triple room_ok_nonempty room_checkGameOver (λ _, room_ok_nonempty).
Proof.
  intros r [[Hc Hw] Hne]. unfold room_checkGameOver. run.
  pose proof (checkGameOver_ok (gameState r) (players r) Hw) as [Hw' Hlen].
  destruct (checkGameOver (gameState r) (players r)) as [[over gs'] ps'].
  simpl in *. eexists _, _. split; [done|]. split; [split|]; simpl.
  - by eapply cursor_ok_same_length; [| |exact Hc].
  - done.
  - intros Hnil. apply Hne, length_zero_iff_nil. by rewrite <- Hlen, Hnil.
Qed.

End room_keeps.

Section handlers_keep.
Implicit Types (r : GameRoom) (e : event).

Lemma nonempty_room_ok r : room_ok_nonempty r → room_ok r.
Proof. by intros [? _]. Qed.

Lemma drop_value {A} (P Q : GameRoom → Prop) (m : M A) :
  triple P m (λ _, Q) → triple P (m;; mret ()) (λ _, Q).
Proof.
  intros Hm. eapply triple_bind; [exact Hm|]. intros a. apply (triple_ret Q).
Qed.

Lemma after_move_ok : triple room_ok_nonempty after_move (λ _, room_ok).
Proof.
  unfold after_move. eapply triple_bind; [apply room_checkGameOver_ok|].
  intros over. destruct over; simpl.
  - apply drop_value. eapply triple_weaken; [apply getState_ok| |];
      [apply nonempty_room_ok | intros ? r Hr; exact Hr].
  - eapply triple_bind; [apply nextTurn_ok|]. intros ?.
    eapply triple_bind; [apply getCurrentPlayer_ok_nonempty|]. intros ?.
    apply drop_value. eapply triple_weaken; [apply getState_ok| |];
      [apply nonempty_room_ok | intros ? r Hr; exact Hr].
Qed.

Lemma handleJoinRoom_ok playerId playerName socketId now :
  triple room_ok (handleJoinRoom playerId playerName socketId now) (λ _, room_ok).
Proof.
  apply triple_try_catch. case_bool_decide; [apply triple_ret|].
  eapply triple_bind; [apply addPlayer_ok|].
  intros success. destruct success; simpl.
  - eapply triple_bind; [apply getState_ok|]. intros ?.
    apply drop_value, getState_ok.
  - apply triple_ret.
Qed.

Lemma handleRollDice_ok playerId roll :
  triple room_ok (handleRollDice playerId roll) (λ _, room_ok).
Proof.
  apply triple_try_catch.
  eapply triple_bind; [apply getCurrentPlayer_ok|].
  intros currentPlayer. destruct currentPlayer as [[i cur]|]; simpl.
  - case_bool_decide.
    { eapply triple_weaken; [apply (triple_ret room_ok)| |];
        [by intros r [? _] | intros ? r Hr; exact Hr]. }
    eapply triple_bind; [|intros ?; apply after_move_ok].
    eapply triple_weaken; [apply (room_updateScore_ok i cur)| |];
      [|intros ? r Hr; exact Hr].
    intros r [Hok Hcur]. split; [done|]. by apply Hcur.
  - eapply triple_weaken; [apply (triple_ret room_ok)| |];
      [by intros r [? _] | intros ? r Hr; exact Hr].
Qed.

Lemma handleHold_ok playerId :
  triple room_ok (handleHold playerId) (λ _, room_ok).
Proof.
  apply triple_try_catch.
  eapply triple_bind; [apply getCurrentPlayer_ok|].
  intros currentPlayer. destruct currentPlayer as [[i cur]|]; simpl.
  - case_bool_decide.
    { eapply triple_weaken; [apply (triple_ret room_ok)| |];
        [by intros r [? _] | intros ? r Hr; exact Hr]. }
    eapply triple_bind.
    { eapply triple_weaken; [apply (room_hold_ok i cur)| |];
        [|intros ? r Hr; exact Hr].
      intros r [Hok Hcur]. split; [done|]. by apply Hcur. }
    intros ?. simpl.
    eapply triple_bind; [apply getState_ok_nonempty|]. intros ?.
    apply after_move_ok.
  - eapply triple_weaken; [apply (triple_ret room_ok)| |];
      [by intros r [? _] | intros ? r Hr; exact Hr].
Qed.

Lemma handleNewGame_ok : triple room_ok handleNewGame (λ _, room_ok).
Proof.
  apply triple_try_catch.
  eapply triple_bind; [apply resetGame_ok|]. intros ?.
  apply drop_value, getState_ok.
Qed.

Lemma handleDisconnect_ok playerId :
  triple room_ok (handleDisconnect playerId) (λ _, room_ok).
Proof.
  apply triple_try_catch. unfold getPlayer.
  intros r Hok. run. destruct (list_find _ _) as [ip|].
  - apply (triple_bind room_ok (removePlayer playerId) (λ _, room_ok));
      [apply removePlayer_ok | | done].
    intros ?. apply drop_value, getState_ok.
  - by eexists _, _.
Qed.

Lemma handle_ok e : triple room_ok (handle e) (λ _, room_ok).
Proof.
  destruct e; simpl.
  - apply handleJoinRoom_ok.
  - apply handleRollDice_ok.
  - apply handleHold_ok.
  - apply handleNewGame_ok.
  - apply handleDisconnect_ok.
Qed.

Lemma newGameRoom_ok i maxPlayers now : room_ok (newGameRoom i maxPlayers now).
Proof. split; [exists 0%nat; split; [done | by left] | by intros Hw]. Qed.

Lemma reachable_ok r : reachable r → room_ok r.
Proof.
  induction 1 as [i mp now|r e Hr IH He].
  - apply newGameRoom_ok.
  - by apply (triple_exec room_ok (handle e) room_ok r (handle_ok e)).
Qed.

(** Calls made directly: the room stays good as long as [nextTurn] is
    not called on an empty roster. *)
Lemma do_calls_ok cs : ∀ r,
  room_ok r → guarded cs r → room_ok (exec (do_calls cs) r).
Proof.
  induction cs as [|c cs IH]; intros r Hok Hg; [done|].
  destruct Hg as [Hc Hg].
  assert (triple (λ r', r' = r) (do_call c) (λ _, room_ok)) as Hcall.
  { destruct c as [player|playerId|]; simpl.
    - apply drop_value. eapply triple_weaken; [apply addPlayer_ok| |];
        [by intros ? -> | intros ? r' Hr'; exact Hr'].
    - apply drop_value. eapply triple_weaken; [apply removePlayer_ok| |];
        [by intros ? -> | intros ? r' Hr'; exact Hr'].
    - eapply triple_weaken; [apply nextTurn_ok| |];
        [|intros ? r' Hr'; exact (nonempty_room_ok _ Hr')].
      intros ? ->. split; [done|]. by apply Hc. }
  destruct (Hcall r eq_refl) as (a & r1 & Hrun & Hr1).
  unfold exec in *. simpl. run. rewrite Hrun in *. simpl in *.
  by apply IH.
Qed.

End handlers_keep.

(** *** getCurrentPlayer and getState *)

Section snapshots.
Implicit Types (r : GameRoom).

(** [getCurrentPlayer] after calls made directly on a new room, when no
    [nextTurn] met an empty roster: an active roster member or [null], and
    no exception. *)
Lemma getCurrentPlayer_after_guarded_calls cs i maxPlayers now :
  guarded cs (newGameRoom i maxPlayers now) →
  let r := exec (do_calls cs) (newGameRoom i maxPlayers now) in
  match getCurrentPlayer r with
  | (Ret (Some (j, p)), r') =>
      players r' = players r ∧ players r !! j = Some p ∧ status p = active
  | (Ret None, r') => r' = r ∧ ∀ q, q ∈ players r → status q ≠ active
  | (Throw, _) => False
  end.
Proof.
  intros Hg r.
  assert (room_ok r) as [Hc _] by (apply do_calls_ok; [apply newGameRoom_ok|done]).
  pose proof (getCurrentPlayer_spec r Hc) as Hspec.
  destruct (getCurrentPlayer r) as [[[[j p]|]|] r']; [|done|done].
  by destruct Hspec as (-> & Hj & Hp).
Qed.

(** [getState], in terms of the [getCurrentPlayer] it calls. *)
Lemma getState_cases r :
  getState r =
    match getCurrentPlayer r with
    | (Ret cur, r1) =>
        (Ret {| rs_roomId := roomId r1;
                rs_players := toJSON <$> players r;
                rs_currentTurn := cur ≫= (λ ip, or_null (id ip.2));
                rs_gameStarted := gameStarted (gameState r1);
                rs_gameOver := gameOver (gameState r1);
                rs_winner := winner (gameState r1) |}, r1)
    | (Throw, r1) => (Throw, r1)
    end.
Proof. unfold getState. run. by destruct (getCurrentPlayer r) as [[cur|] r1]. Qed.

Lemma getState_idem r :
  getState (exec getState r) = (result getState r, exec getState r).
Proof.
  unfold exec, result. rewrite (getState_cases r).
  pose proof (getCurrentPlayer_idem r) as Hidem.
  pose proof (getCurrentPlayer_frame r) as (Hps & Hgs & Hid).
  unfold exec, result in *.
  destruct (getCurrentPlayer r) as [[cur|] r1]; simpl in *;
    by rewrite getState_cases, Hidem, ?Hps.
Qed.

End snapshots.

(** C4. A call of [nextTurn] on an empty room makes the cursor [NaN]
    ([1 % 0]); no later call repairs it, and once a player has joined
    [getCurrentPlayer] throws, reading [status] of [undefined], instead of
    returning an active member or null. *)
Theorem getCurrentPlayer_throws_after_nextTurn_on_empty_room
    (i : string) (maxPlayers now : Z) (player : Player) :
  1 ≤ maxPlayers →
  let r := exec (do_calls [NextTurn; AddPlayer player])
             (newGameRoom i maxPlayers now) in
  players r = [player] ∧ currentTurnIndex r = NaN
  ∧ getCurrentPlayer r = (Throw, r).
Proof.
  intros Hmax. unfold exec, do_calls, do_call, nextTurn, addPlayer. run.
  rewrite bool_decide_eq_false_2 by lia. simpl.
  split; [reflexivity|]. split; [reflexivity|].
  apply getCurrentPlayer_bad_cursor; [done|].
  by intros (j & [=] & _).
Qed.

Lemma getCurrentPlayer_throws_after_nextTurn_on_empty_room_witness :
  let alice := newPlayer "A" "Alice" "s1" 0 in
  let r := exec (do_calls [NextTurn; AddPlayer alice]) (newGameRoom "room" 4 0) in
  getCurrentPlayer r = (Throw, r).
Proof.
  intros alice r.
  assert (1 ≤ 4) as Hmax by lia.
  exact (proj2 (proj2 (getCurrentPlayer_throws_after_nextTurn_on_empty_room
                         "room" 4 0 alice Hmax))).
Defined.

(** C9. Two calls of [getState] in a row: the second returns what the first
    returned and leaves the room as the first left it, in every room; and in
    every room the handlers can reach both return a snapshot, the same one,
    although the first call may have moved the cursor. *)
Theorem getState_idempotent :
  (∀ r, getState (exec getState r) = (result getState r, exec getState r))
  ∧ (∀ r, reachable r →
       ∃ s r1, getState r = (Ret s, r1) ∧ getState r1 = (Ret s, r1)).
Proof.
  split; [apply getState_idem|].
  intros r Hr. destruct (getState_ok r (reachable_ok r Hr)) as (s & r1 & Hrun & _).
  exists s, r1. split; [done|].
  pose proof (getState_idem r) as Hidem. unfold exec, result in Hidem.
  by rewrite Hrun in Hidem.
Qed.

Lemma getState_idempotent_witness :
  let r := exec (handle (HOLD "A"))
            (exec (handle (JOIN_ROOM "B" "Bob" "s2" 0))
              (exec (handle (JOIN_ROOM "A" "Alice" "s1" 0))
                (newGameRoom "room" 4 0))) in
  ∃ s r1, getState r = (Ret s, r1) ∧ getState r1 = (Ret s, r1).
Proof.
  intros r. apply (proj2 getState_idempotent).
  repeat (apply reachable_handle; [|exact I]). apply reachable_new.
Defined.

(** *** The winner and [gameOver] *)

(** C3, as stated, fails.  Alice and Bob join, Alice holds, Bob
    disconnects: [removePlayer] ends the game without determining a winner,
    so the game is over, Alice is held, and there is no winner. *)
Lemma winner_invariant_fails_after_disconnect :
  let r := exec (handle (DISCONNECT "B"))
            (exec (handle (HOLD "A"))
              (exec (handle (JOIN_ROOM "B" "Bob" "s2" 0))
                (exec (handle (JOIN_ROOM "A" "Alice" "s1" 0))
                  (newGameRoom "room" 4 0)))) in
  reachable r
  ∧ players r = [set_status held (newPlayer "A" "Alice" "s1" 0)]
  ∧ gameOver (gameState r) = true
  ∧ winner (gameState r) = None
  ∧ ¬ winner_invariant r.
Proof.
  intros r. split; [|split; [|split; [|split]]].
  - repeat (apply reachable_handle; [|exact I]). apply reachable_new.
  - by vm_compute.
  - by vm_compute.
  - by vm_compute.
  - intros [[_ Hwin] _]. apply Hwin; [|by vm_compute].
    split; [by vm_compute|].
    exists (set_status held (newPlayer "A" "Alice" "s1" 0)).
    split; [|by left]. replace (players r) with
      [set_status held (newPlayer "A" "Alice" "s1" 0)] by by vm_compute.
    apply list_elem_of_singleton. done.
Qed.

(** C3, amended.  In every room the handlers can reach, a winner is named
    only if the game is over.  When [checkGameOver] ends a round (the game
    was not over and no player is active), then right after it the game is
    over, and there is a winner exactly when some player is held or won;
    so there is none when every player busted. *)
Theorem winner_only_when_gameOver :
  (∀ r, reachable r →
     winner (gameState r) ≠ None → gameOver (gameState r) = true)
  ∧ (∀ gs players,
       gameOver gs = false → (∀ p, p ∈ players → status p ≠ active) →
       ∃ gs' players',
         checkGameOver gs players = (true, gs', players')
         ∧ gameOver gs' = true
         ∧ (winner gs' ≠ None ↔ ∃ p, p ∈ players' ∧ candidate p)
         ∧ ((∀ p, p ∈ players' → status p = bust) → winner gs' = None)).
Proof.
  split.
  { intros r Hr. apply (reachable_ok r Hr). }
  intros gs players Hover Hnone. unfold checkGameOver. rewrite Hover.
  rewrite bool_decide_eq_true_2 by by apply filter_length_0.
  rewrite determineWinner_cases.
  pose proof (reduce_validPlayers players) as Hred.
  destruct (reduce better (validPlayers players)) as [[i w]|].
  - destruct Hred as (Hi & Hw & _). eexists _, _. split; [done|]. simpl.
    assert (alter (set_status won) i players !! i = Some (set_status won w))
      as Hi' by by rewrite list_lookup_alter_eq, Hi.
    assert (set_status won w ∈ alter (set_status won) i players) as Hin
      by by eapply list_elem_of_lookup_2.
    split; [done|]. split; [split|].
    + intros _. exists (set_status won w). split; [done | by right].
    + done.
    + intros Hbust. by specialize (Hbust _ Hin).
  - eexists _, _. split; [done|]. simpl. split; [done|]. split; [split|].
    + done.
    + intros (p & Hin & Hp). by destruct (Hred p Hin).
    + done.
Qed.

Lemma winner_only_when_gameOver_witness :
  let a := set_status held (set_score 15 (newPlayer "A" "Alice" "s1" 0)) in
  let b := set_status bust (set_score 20 (newPlayer "B" "Bob" "s2" 0)) in
  gameOver (gameState (exec (handle (JOIN_ROOM "A" "Alice" "s1" 0))
                         (newGameRoom "room" 4 0))) = true
  ∨ ∃ gs' players', checkGameOver newGameState [a; b] = (true, gs', players')
      ∧ gameOver gs' = true.
Proof.
  intros a b. right.
  destruct (proj2 winner_only_when_gameOver newGameState [a; b] eq_refl)
    as (gs' & players' & Hrun & Hover & _).
  - intros p Hp. apply elem_of_cons in Hp as [->|Hp]; [done|].
    apply list_elem_of_singleton in Hp. by subst p.
  - by exists gs', players'.
Defined.

(** * Further properties *)

(** ** What each room method does to the room *)

Section effects.
Implicit Types (r : GameRoom) (p cur player : Player).

Lemma getCurrentPlayer_only_cursor r :
  ∃ c, exec getCurrentPlayer r = set_currentTurnIndex c r.
Proof.
  unfold exec. destruct (decide (players r = [])) as [Hnil|Hne].
  { rewrite (getCurrentPlayer_empty r Hnil). exists (currentTurnIndex r).
    by rewrite set_currentTurnIndex_same. }
  destruct (cursor_ok_or_not r) as [Hok|Hbad].
  - pose proof (getCurrentPlayer_spec r Hok) as Hspec.
    destruct (getCurrentPlayer r) as [[[[j p]|]|] r']; [| |done].
    + destruct Hspec as (-> & _). by eexists.
    + destruct Hspec as (-> & _). exists (currentTurnIndex r).
      by rewrite set_currentTurnIndex_same.
  - rewrite (getCurrentPlayer_bad_cursor r Hne Hbad). exists (currentTurnIndex r).
    by rewrite set_currentTurnIndex_same.
Qed.

Lemma getState_only_cursor r :
  ∃ c, exec getState r = set_currentTurnIndex c r.
Proof.
  destruct (getCurrentPlayer_only_cursor r) as [c Hc]. exists c.
  unfold exec in *. rewrite getState_cases.
  by destruct (getCurrentPlayer r) as [[cur|] r1].
Qed.

Lemma addPlayer_effect player r :
  exec (addPlayer player) r = r
  ∨ (Z.of_nat (length (players r)) < maxPlayers r
     ∧ (∀ p, p ∈ players r → id p ≠ id player)
     ∧ ∃ gs, (gs = gameState r ∨ gs = start (gameState r))
         ∧ ((2 ≤ length (players r) + 1)%nat → gameStarted gs = true)
         ∧ exec (addPlayer player) r =
             set_gameState gs (set_players (players r ++ [player]) r)).
Proof.
  unfold exec, addPlayer. run. case_bool_decide as Hfull; [by left|].
  destruct (list_find _ _) eqn:Hfind; [by left|]. right.
  apply list_find_None in Hfind. rewrite Forall_forall in Hfind.
  split; [lia|]. split; [done|]. rewrite length_app. simpl.
  destruct (gameStarted (gameState r)) eqn:Hst.
  - rewrite andb_false_r. exists (gameState r).
    split; [by left|]. split; [done|].
    by rewrite (set_gameState_same (set_players _ r)).
  - rewrite andb_true_r. case_bool_decide as Hlen.
    + exists (start (gameState r)). split; [by right|]. done.
    + exists (gameState r). split; [by left|]. split; [intros; lia|].
      by rewrite (set_gameState_same (set_players _ r)).
Qed.

Lemma removePlayer_effect playerId r :
  exec (removePlayer playerId) r = r
  ∨ ∃ i p gs c,
      players r !! i = Some p
      ∧ (gs = gameState r ∨ gs = set_gameOver true (gameState r))
      ∧ exec (removePlayer playerId) r =
          set_gameState gs (set_currentTurnIndex c
            (set_players (delete i (players r)) r)).
Proof.
  destruct (list_find (λ p, id p = playerId) (players r)) as [[i p]|] eqn:Hfind.
  - right. unfold exec. rewrite (removePlayer_found _ _ _ _ Hfind).
    apply list_find_Some in Hfind as (Hi & _). simpl.
    destruct (num_ge _ _); simpl; case_bool_decide; simpl.
    + exists i, p, (set_gameOver true (gameState r)), (Num 0).
      split; [done|]. split; [by right | done].
    + exists i, p, (gameState r), (Num 0). split; [done|]. split; [by left|].
      by destruct r.
    + exists i, p, (set_gameOver true (gameState r)), (currentTurnIndex r).
      split; [done|]. split; [by right|]. by destruct r.
    + exists i, p, (gameState r), (currentTurnIndex r).
      split; [done|]. split; [by left|]. by destruct r.
  - left. unfold exec, removePlayer. run. by rewrite Hfind.
Qed.

Lemma resetGame_effect r :
  exec resetGame r =
    set_gameState
      (if bool_decide (2 ≤ length (players r))%nat
       then start (reset (gameState r)) else reset (gameState r))
      (set_currentTurnIndex (Num 0)
         (set_players (reset_player <$> players r) r)).
Proof.
  unfold exec, resetGame. run. rewrite length_fmap. by case_bool_decide.
Qed.

Lemma room_updateScore_effect i cur roll r :
  exec (room_updateScore i cur roll) r =
    set_gameState (updateScore (gameState r) cur roll).1.2
      (set_players (<[i:=(updateScore (gameState r) cur roll).2]> (players r)) r).
Proof.
  unfold exec, room_updateScore. run.
  by destruct (updateScore (gameState r) cur roll) as [[res gs'] cur'].
Qed.

Lemma room_hold_effect i cur r :
  exec (room_hold i cur) r =
    set_players (<[i:=(hold (gameState r) cur).2]> (players r)) r.
Proof.
  unfold exec, room_hold. run.
  by destruct (hold (gameState r) cur) as [res cur'].
Qed.

Lemma room_checkGameOver_effect r :
  room_checkGameOver r =
    (Ret (checkGameOver (gameState r) (players r)).1.1,
     set_gameState (checkGameOver (gameState r) (players r)).1.2
       (set_players (checkGameOver (gameState r) (players r)).2 r)).
Proof.
  unfold room_checkGameOver. run.
  by destruct (checkGameOver (gameState r) (players r)) as [[over gs'] ps'].
Qed.

End effects.

(** ** Keeping an invariant through the handlers *)

Lemma getCurrentPlayer_ok_active :
  triple room_ok getCurrentPlayer
    (λ o r, room_ok r ∧ ∀ i cur, o = Some (i, cur) →
              players r !! i = Some cur ∧ status cur = active).
Proof.
  intros r Hok. pose proof Hok as [Hc Hw].
  pose proof (getCurrentPlayer_spec r Hc) as Hspec.
  destruct (getCurrentPlayer_ok r Hok) as (o & r' & Hrun & Hok' & _).
  exists o, r'. split; [done|]. split; [done|].
  intros i cur ->. rewrite Hrun in Hspec. by destruct Hspec as (-> & Hi & Hact).
Qed.

Section invariant.
Variable J : GameRoom → Prop.
Hypothesis J_cursor : ∀ r c, J r → J (set_currentTurnIndex c r).
Hypothesis J_addPlayer : ∀ r i n s now,
  J r → J (exec (addPlayer (newPlayer i n s now)) r).
Hypothesis J_removePlayer : ∀ r playerId, J r → J (exec (removePlayer playerId) r).
Hypothesis J_resetGame : ∀ r, J r → J (exec resetGame r).
Hypothesis J_updateScore : ∀ r i cur roll,
  J r → players r !! i = Some cur → status cur = active → die roll →
  J (exec (room_updateScore i cur roll) r).
Hypothesis J_hold : ∀ r i cur,
  J r → players r !! i = Some cur → status cur = active →
  J (exec (room_hold i cur) r).
Hypothesis J_checkGameOver : ∀ r, J r → J (exec room_checkGameOver r).

(** A rule to carry [J] along a triple. *)
Lemma triple_keep {A} (P : GameRoom → Prop) (m : M A) (Q : A → GameRoom → Prop) :
  triple P m Q → (∀ r, P r → J r → J (exec m r)) →
  triple (λ r, P r ∧ J r) m (λ a r, Q a r ∧ J r).
Proof.
  intros Hm HJ r [HP HJr]. destruct (Hm r HP) as (a & r' & Hrun & HQ).
  exists a, r'. split; [done|]. split; [done|].
  specialize (HJ r HP HJr). unfold exec in HJ. by rewrite Hrun in HJ.
Qed.

Lemma getCurrentPlayer_keeps r : J r → J (exec getCurrentPlayer r).
Proof.
  intros HJ. destruct (getCurrentPlayer_only_cursor r) as [c ->].
  by apply J_cursor.
Qed.

Lemma getState_keeps r : J r → J (exec getState r).
Proof.
  intros HJ. destruct (getState_only_cursor r) as [c ->]. by apply J_cursor.
Qed.

Lemma nextTurn_keeps r : J r → J (exec nextTurn r).
Proof. intros HJ. by apply J_cursor. Qed.

Lemma getState_keep_ok :
  triple (λ r, room_ok r ∧ J r) (getState;; mret ()) (λ _ r, room_ok r ∧ J r).
Proof.
  apply (drop_value _ (λ r, room_ok r ∧ J r)).
  apply triple_keep; [apply getState_ok|]. intros r _. apply getState_keeps.
Qed.

Lemma after_move_keeps :
  triple (λ r, room_ok_nonempty r ∧ J r) after_move (λ _ r, room_ok r ∧ J r).
Proof.
  unfold after_move. eapply triple_bind.
  { apply triple_keep; [apply room_checkGameOver_ok|].
    intros r _. apply J_checkGameOver. }
  intros over. destruct over; simpl.
  - eapply triple_weaken; [apply getState_keep_ok| |];
      [|intros ? r Hr; exact Hr].
    intros r [[Hok _] HJ]. by split.
  - eapply triple_bind.
    { apply triple_keep; [apply nextTurn_ok|]. intros r _. apply nextTurn_keeps. }
    intros ?. simpl. eapply triple_bind.
    { apply triple_keep; [apply getCurrentPlayer_ok_nonempty|].
      intros r _. apply getCurrentPlayer_keeps. }
    intros ?. simpl.
    eapply triple_weaken; [apply getState_keep_ok| |];
      [|intros ? r Hr; exact Hr].
    intros r [[Hok _] HJ]. by split.
Qed.

Lemma current_player_keep :
  triple (λ r, room_ok r ∧ J r) getCurrentPlayer
    (λ o r, (room_ok r ∧ ∀ i cur, o = Some (i, cur) →
               players r !! i = Some cur ∧ status cur = active) ∧ J r).
Proof.
  apply triple_keep; [apply getCurrentPlayer_ok_active|].
  intros r _. apply getCurrentPlayer_keeps.
Qed.

Lemma handle_keeps e :
  possible e →
  triple (λ r, room_ok r ∧ J r) (handle e) (λ _ r, room_ok r ∧ J r).
Proof.
  intros He. destruct e as [playerId playerName socketId now|playerId roll
                            |playerId| |playerId]; simpl.
  - apply triple_try_catch. case_bool_decide.
    { apply (triple_ret (λ r, room_ok r ∧ J r)). }
    eapply triple_bind.
    { apply triple_keep; [apply addPlayer_ok|]. intros r _. apply J_addPlayer. }
    intros success. destruct success; simpl; [|apply (triple_ret (λ r, room_ok r ∧ J r))].
    eapply triple_bind; [|intros ?; apply getState_keep_ok].
    apply triple_keep; [apply getState_ok|]. intros r _. apply getState_keeps.
  - apply triple_try_catch.
    eapply triple_bind; [apply current_player_keep|].
    intros currentPlayer. destruct currentPlayer as [[i cur]|]; simpl.
    + case_bool_decide.
      { eapply triple_weaken; [apply (triple_ret (λ r, room_ok r ∧ J r))| |];
          [by intros r [[? _] ?] | intros ? r Hr; exact Hr]. }
      eapply triple_bind; [|intros ?; apply after_move_keeps].
      intros r [[Hok Hcur] HJ]. destruct (Hcur i cur eq_refl) as [Hi Hact].
      destruct (room_updateScore_ok i cur roll r (conj Hok Hi))
        as (a & r' & Hrun & Hok').
      exists a, r'. split; [done|]. split; [done|].
      pose proof (J_updateScore r i cur roll HJ Hi Hact He) as HJ'.
      unfold exec in HJ'. by rewrite Hrun in HJ'.
    + eapply triple_weaken; [apply (triple_ret (λ r, room_ok r ∧ J r))| |];
        [by intros r [[? _] ?] | intros ? r Hr; exact Hr].
  - apply triple_try_catch.
    eapply triple_bind; [apply current_player_keep|].
    intros currentPlayer. destruct currentPlayer as [[i cur]|]; simpl.
    + case_bool_decide.
      { eapply triple_weaken; [apply (triple_ret (λ r, room_ok r ∧ J r))| |];
          [by intros r [[? _] ?] | intros ? r Hr; exact Hr]. }
      eapply triple_bind.
      { intros r [[Hok Hcur] HJ]. destruct (Hcur i cur eq_refl) as [Hi Hact].
        destruct (room_hold_ok i cur r (conj Hok Hi)) as (a & r' & Hrun & Hok').
        exists a, r'. split; [done|].
        pose proof (J_hold r i cur HJ Hi Hact) as HJ'.
        unfold exec in HJ'. rewrite Hrun in HJ'. exact (conj Hok' HJ'). }
      intros ?. simpl.
      eapply triple_bind; [|intros ?; apply after_move_keeps].
      apply triple_keep; [apply getState_ok_nonempty|].
      intros r _. apply getState_keeps.
    + eapply triple_weaken; [apply (triple_ret (λ r, room_ok r ∧ J r))| |];
        [by intros r [[? _] ?] | intros ? r Hr; exact Hr].
  - apply triple_try_catch.
    eapply triple_bind; [|intros ?; apply getState_keep_ok].
    apply triple_keep; [apply resetGame_ok|]. intros r _. apply J_resetGame.
  - apply triple_try_catch. unfold getPlayer.
    intros r HK. run. destruct (list_find _ _) as [ip|].
    + apply (triple_bind (λ r, room_ok r ∧ J r) (removePlayer playerId)
               (λ _ r, room_ok r ∧ J r)); [| |done].
      * apply triple_keep; [apply removePlayer_ok|].
        intros r0 _. apply J_removePlayer.
      * intros ?. apply getState_keep_ok.
    + by eexists _, _.
Qed.

Lemma reachable_keeps :
  (∀ i maxPlayers now, J (newGameRoom i maxPlayers now)) →
  ∀ r, reachable r → J r.
Proof.
  intros Hnew r Hr. cut (room_ok r ∧ J r); [by intros [_ ?]|].
  induction Hr as [i mp now|r e Hr IH He].
  - split; [apply newGameRoom_ok | apply Hnew].
  - destruct (handle_keeps e He r IH) as (a & r' & Hrun & HK).
    unfold exec. by rewrite Hrun.
Qed.

End invariant.

(** ** Invariants of the rooms the handlers reach *)

Section what_moves_keep.
Implicit Types (gs : GameState) (p cur : Player) (ps : list Player) (r : GameRoom).

Lemma updateScore_keeps gs p roll :
  id (updateScore gs p roll).2 = id p
  ∧ gameStarted (updateScore gs p roll).1.2 = gameStarted gs
  ∧ targetScore (updateScore gs p roll).1.2 = targetScore gs.
Proof. rewrite updateScore_cases. by repeat case_bool_decide. Qed.

Lemma hold_keeps gs p :
  id (hold gs p).2 = id p ∧ score (hold gs p).2 = score p.
Proof. unfold hold. by case_bool_decide. Qed.

Lemma insert_same_id ps i cur cur' :
  ps !! i = Some cur → id cur' = id cur → id <$> <[i:=cur']> ps = id <$> ps.
Proof.
  intros Hi Hid. rewrite list_fmap_insert, Hid. apply list_insert_id.
  by rewrite list_lookup_fmap, Hi.
Qed.

Lemma checkGameOver_keeps gs ps :
  id <$> (checkGameOver gs ps).2 = id <$> ps
  ∧ length (checkGameOver gs ps).2 = length ps
  ∧ gameStarted (checkGameOver gs ps).1.2 = gameStarted gs
  ∧ targetScore (checkGameOver gs ps).1.2 = targetScore gs.
Proof.
  unfold checkGameOver. destruct (gameOver gs); [done|].
  case_bool_decide; [|done].
  pose proof (determineWinner_gameOver (set_gameOver true gs) ps) as (_ & Hs & Ht).
  pose proof (determineWinner_length (set_gameOver true gs) ps) as Hlen.
  rewrite determineWinner_cases in *.
  destruct (reduce better (validPlayers ps)) as [[i w]|]; simpl in *; [|done].
  split; [|done]. rewrite (list_fmap_alter id _ (λ x, x)).
  - clear. generalize (id <$> ps). intros l. revert i.
    induction l as [|a l IH]; intros [|i]; simpl; try done. f_equal. apply IH.
  - by apply Forall_forall.
Qed.

Lemma checkGameOver_scores gs ps :
  Forall player_ok ps → Forall player_ok (checkGameOver gs ps).2.
Proof.
  intros Hps. unfold checkGameOver. destruct (gameOver gs); [done|].
  case_bool_decide; [|done]. rewrite determineWinner_cases.
  pose proof (reduce_validPlayers ps) as Hred.
  destruct (reduce better (validPlayers ps)) as [[i w]|]; simpl; [|done].
  destruct Hred as (Hi & Hw & _). apply Forall_alter; [done|].
  intros x Hx. rewrite Hi in Hx. injection Hx as <-.
  unfold player_ok. simpl. destruct Hw as [-> | ->]; lia.
Qed.

Lemma updateScore_scores gs cur roll :
  targetScore gs = 18 → player_ok cur → status cur = active → die roll →
  player_ok (updateScore gs cur roll).2.
Proof.
  intros Ht Hcur Hact [Hlo Hhi]. unfold player_ok in Hcur. rewrite Hact in Hcur.
  rewrite updateScore_cases, Ht.
  repeat case_bool_decide; unfold player_ok; simpl; rewrite ?Hact; lia.
Qed.

End what_moves_keep.

(** X1. In every room the handlers can reach, a player id appears at most
    once in the roster: [addPlayer] refuses an id that is present, and no
    other method touches an id. *)
Theorem roster_ids_unique (r : GameRoom) : reachable r → ids_unique r.
Proof.
  apply (reachable_keeps ids_unique); unfold ids_unique.
  - done.
  - intros r0 i n s now HJ.
    destruct (addPlayer_effect (newPlayer i n s now) r0)
      as [->|(_ & Hfresh & gs & _ & _ & ->)]; [done|].
    simpl. rewrite fmap_app. apply NoDup_app. split; [done|]. split.
    + intros x Hx Hin. apply list_elem_of_singleton in Hin. subst x.
      apply list_elem_of_fmap in Hx as (p & Hid & Hp). by apply (Hfresh p Hp).
    + apply NoDup_singleton.
  - intros r0 playerId HJ.
    destruct (removePlayer_effect playerId r0)
      as [->|(i & p & gs & c & _ & _ & ->)]; [done|].
    simpl. eapply sublist_NoDup; [exact HJ|].
    apply fmap_sublist, sublist_delete.
  - intros r0 HJ. rewrite resetGame_effect. simpl.
    rewrite <- list_fmap_compose.
    by replace (id ∘ reset_player) with id by done.
  - intros r0 i cur roll HJ Hi _ _. rewrite room_updateScore_effect. simpl.
    rewrite (insert_same_id _ _ cur); [done..|apply updateScore_keeps].
  - intros r0 i cur HJ Hi _. rewrite room_hold_effect. simpl.
    rewrite (insert_same_id _ _ cur); [done..|apply hold_keeps].
  - intros r0 HJ. unfold exec. rewrite room_checkGameOver_effect. simpl.
    by rewrite (proj1 (checkGameOver_keeps _ _)).
  - intros i mp now. simpl. apply NoDup_nil_2.
Qed.

Lemma roster_ids_unique_witness :
  ids_unique (exec (handle (JOIN_ROOM "B" "Bob" "s2" 0))
                (exec (handle (JOIN_ROOM "A" "Alice" "s1" 0))
                   (newGameRoom "room" 4 0))).
Proof.
  apply roster_ids_unique.
  repeat (apply reachable_handle; [|exact I]). apply reachable_new.
Defined.

(** X2. In every room the handlers can reach from a room made with a
    capacity that is a number ([parseInt] read [MAX_PLAYERS_PER_ROOM] or the
    default applies; a [NaN] capacity never refuses and is left out), the
    roster holds at most [maxPlayers] players, none when [maxPlayers] is
    zero or negative. *)
Theorem roster_within_capacity (r : GameRoom) : reachable r → within_capacity r.
Proof.
  apply (reachable_keeps within_capacity); unfold within_capacity.
  - done.
  - intros r0 i n s now HJ.
    destruct (addPlayer_effect (newPlayer i n s now) r0)
      as [->|(Hroom & _ & gs & _ & _ & ->)]; [done|].
    simpl. rewrite length_app. simpl. lia.
  - intros r0 playerId HJ.
    destruct (removePlayer_effect playerId r0)
      as [->|(i & p & gs & c & Hi & _ & ->)]; [done|].
    simpl. rewrite length_delete by done. lia.
  - intros r0 HJ. rewrite resetGame_effect. simpl. by rewrite length_fmap.
  - intros r0 i cur roll HJ _ _ _. rewrite room_updateScore_effect. simpl.
    by rewrite length_insert.
  - intros r0 i cur HJ _ _. rewrite room_hold_effect. simpl.
    by rewrite length_insert.
  - intros r0 HJ. unfold exec. rewrite room_checkGameOver_effect. simpl.
    by rewrite (proj1 (proj2 (checkGameOver_keeps _ _))).
  - intros i mp now. simpl. lia.
Qed.

Lemma roster_within_capacity_witness :
  within_capacity (exec (handle (JOIN_ROOM "B" "Bob" "s2" 0))
                     (exec (handle (JOIN_ROOM "A" "Alice" "s1" 0))
                        (newGameRoom "room" 1 0))).
Proof.
  apply roster_within_capacity.
  repeat (apply reachable_handle; [|exact I]). apply reachable_new.
Defined.



(** X4. In every room the handlers can reach, the target is 18 and every
    player's score fits the status: an active or held player has 0 to 17, a
    won player 0 to 18, a bust player 19 to 23 (the handlers roll only for
    the active player whose turn it is, with a die of 1 to 6). *)
Theorem scores_fit_status (r : GameRoom) : reachable r → scores_ok r.
Proof.
  apply (reachable_keeps scores_ok); unfold scores_ok.
  - done.
  - intros r0 i n s now [Ht Hps].
    destruct (addPlayer_effect (newPlayer i n s now) r0)
      as [->|(_ & _ & gs & Hgs & _ & ->)]; [done|].
    simpl. split; [by destruct Hgs as [-> | ->]|].
    apply Forall_app. split; [done|]. apply Forall_singleton.
    unfold player_ok. simpl. lia.
  - intros r0 playerId [Ht Hps].
    destruct (removePlayer_effect playerId r0)
      as [->|(i & p & gs & c & Hi & Hgs & ->)]; [done|].
    simpl. split; [by destruct Hgs as [-> | ->]|]. by apply Forall_delete.
  - intros r0 [Ht Hps]. rewrite resetGame_effect. simpl.
    split; [by case_bool_decide|]. apply Forall_fmap, Forall_forall.
    intros p _. unfold player_ok. simpl. lia.
  - intros r0 i cur roll [Ht Hps] Hi Hact Hdie.
    rewrite room_updateScore_effect. simpl.
    split; [by rewrite (proj2 (proj2 (updateScore_keeps _ _ _)))|].
    apply Forall_insert; [done|]. apply updateScore_scores; try done.
    by eapply Forall_lookup_1.
  - intros r0 i cur [Ht Hps] Hi Hact. rewrite room_hold_effect. simpl.
    split; [done|]. apply Forall_insert; [done|].
    pose proof (Forall_lookup_1 _ _ _ _ Hps Hi) as Hcur.
    unfold hold. rewrite bool_decide_eq_false_2 by (by intros []).
    unfold player_ok in *. simpl. by rewrite Hact in Hcur.
  - intros r0 [Ht Hps]. unfold exec. rewrite room_checkGameOver_effect. simpl.
    split; [|by apply checkGameOver_scores].
    by rewrite (proj2 (proj2 (proj2 (checkGameOver_keeps _ _)))).
  - intros i mp now. simpl. split; [done|]. apply Forall_nil_2.
Qed.

Lemma scores_fit_status_witness :
  scores_ok (exec (handle (ROLL_DICE "A" 6))
               (exec (handle (JOIN_ROOM "B" "Bob" "s2" 0))
                  (exec (handle (JOIN_ROOM "A" "Alice" "s1" 0))
                     (newGameRoom "room" 4 0)))).
Proof.
  apply scores_fit_status.
  apply reachable_handle; [|unfold possible, die; lia].
  repeat (apply reachable_handle; [|exact I]). apply reachable_new.
Defined.

(** ** The turn order *)

Section turn_order.
Implicit Types (r : GameRoom) (p q : Player) (i j n t : nat).
Local Open Scope nat_scope.

(** The loop of [getCurrentPlayer] stops at the first active player it
    meets, going round from the cursor. *)
Lemma getCurrentPlayer_loop_first fuel : ∀ r i,
  currentTurnIndex r = Num i → i < length (players r) →
  (∃ t p, t < fuel
     ∧ players r !! ((i + t) mod length (players r)) = Some p
     ∧ status p = active
     ∧ (∀ t' q, t' < t →
          players r !! ((i + t') mod length (players r)) = Some q →
          status q ≠ active)
     ∧ getCurrentPlayer_loop fuel r =
         (Ret (Some ((i + t) mod length (players r), p)),
          set_currentTurnIndex (Num ((i + t) mod length (players r))) r))
  ∨ ((∀ t q, t < fuel →
        players r !! ((i + t) mod length (players r)) = Some q →
        status q ≠ active)
     ∧ getCurrentPlayer_loop fuel r =
         (Ret None,
          set_currentTurnIndex (Num ((i + fuel) mod length (players r))) r)).
Proof.
  induction fuel as [|fuel IH]; intros r i Hi Hlt.
  { right. split; [intros; lia|]. simpl. run.
    by rewrite Nat.add_0_r, Nat.mod_small, <- Hi, set_currentTurnIndex_same. }
  simpl. run. rewrite Hi. simpl.
  destruct (lookup_lt_is_Some_2 _ _ Hlt) as [p Hp]. rewrite Hp. simpl.
  case_bool_decide as Hact.
  { left. exists 0, p. rewrite Nat.add_0_r, Nat.mod_small by done.
    split; [lia|]. split; [done|]. split; [done|]. split; [intros; lia|].
    by rewrite <- Hi, set_currentTurnIndex_same. }
  assert (length (players r) ≠ 0) as Hn by lia.
  rewrite Hi, num_rem_succ by done.
  set (r1 := set_currentTurnIndex _ r).
  destruct (IH r1 ((i + 1) mod length (players r)) eq_refl
              (Nat.mod_upper_bound _ _ Hn))
    as [(t & q & Ht & Hq & Hqact & Hskip & Hrun)|[Hnone Hrun]];
    simpl in *; rewrite Hrun.
  - left. exists (S t), q. rewrite add_mod_succ in *.
    split; [lia|]. split; [done|]. split; [done|]. split; [|by destruct r].
    intros t' q' Ht' Hq'. destruct t' as [|t'].
    + rewrite Nat.add_0_r, Nat.mod_small in Hq' by done. congruence.
    + apply (Hskip t' q'); [lia|]. by rewrite add_mod_succ.
  - right. rewrite add_mod_succ. split; [|by destruct r].
    intros t q Ht Hq. destruct t as [|t].
    + rewrite Nat.add_0_r, Nat.mod_small in Hq by done. congruence.
    + apply (Hnone t q); [lia|]. by rewrite add_mod_succ.
Qed.

Lemma nextTurn_iter r i k :
  currentTurnIndex r = Num i → players r ≠ [] →
  Nat.iter k (exec nextTurn) r =
    set_currentTurnIndex (Num ((i + k) mod length (players r))) r
  ∨ (k = 0 ∧ Nat.iter k (exec nextTurn) r = r).
Proof.
  intros Hi Hne. induction k as [|k IH]; [by right|]. left. simpl.
  assert (length (players r) ≠ 0) as Hn by by rewrite length_zero_iff_nil.
  destruct IH as [-> | [-> ->]].
  - unfold exec. rewrite (nextTurn_Num _ ((i + k) mod length (players r)))
      by done.
    simpl. rewrite Nat.Div0.add_mod_idemp_l.
    replace (i + k + 1) with (i + S k) by lia. by destruct r.
  - unfold exec. by rewrite (nextTurn_Num r i Hi Hne).
Qed.

End turn_order.

(** X5. From a cursor inside the roster, [getCurrentPlayer] returns the
    first active player met going round the roster from the cursor, skipping
    every player before it, and rests the cursor there; it returns null, the
    room as it was, only when no player is active. *)
Theorem getCurrentPlayer_first_active (r : GameRoom) (i : nat) :
  currentTurnIndex r = Num i → (i < length (players r))%nat →
  let n := length (players r) in
  (∃ t p, (t < n)%nat
     ∧ players r !! ((i + t) mod n)%nat = Some p ∧ status p = active
     ∧ (∀ t' q, (t' < t)%nat → players r !! ((i + t') mod n)%nat = Some q →
          status q ≠ active)
     ∧ getCurrentPlayer r =
         (Ret (Some (((i + t) mod n)%nat, p)),
          set_currentTurnIndex (Num ((i + t) mod n)) r))
  ∨ ((∀ q, q ∈ players r → status q ≠ active)
     ∧ getCurrentPlayer r = (Ret None, r)).
Proof.
  intros Hi Hlt n. unfold getCurrentPlayer. run.
  rewrite bool_decide_eq_false_2 by lia.
  destruct (getCurrentPlayer_loop_first n r i Hi Hlt)
    as [(t & p & Ht & Hp & Hact & Hskip & Hrun)|[Hnone Hrun]].
  - left. by exists t, p.
  - right. fold n. rewrite Hrun. unfold n. rewrite lap_returns, <- Hi by done.
    split; [|by rewrite set_currentTurnIndex_same].
    intros q Hq. apply list_elem_of_lookup in Hq as [j Hj].
    destruct (lap_covers i j (length (players r)) Hlt) as (t & Ht & <-);
      [by eapply lookup_lt_Some|].
    by apply (Hnone t q).
Qed.

Lemma getCurrentPlayer_first_active_witness :
  let a := set_status held (newPlayer "A" "Alice" "s1" 0) in
  let b := set_status bust (set_score 20 (newPlayer "B" "Bob" "s2" 0)) in
  let c := newPlayer "C" "Carol" "s3" 0 in
  let r := set_currentTurnIndex (Num 1)
             (set_players [a; b; c] (newGameRoom "room" 4 0)) in
  (result getCurrentPlayer r = Ret (Some (2%nat, c)))
  ∨ (∀ q, q ∈ players r → status q ≠ active).
Proof.
  intros a b c r.
  destruct (getCurrentPlayer_first_active r 1 eq_refl)
    as [(t & p & Ht & Hp & Hact & Hskip & Hrun)|[Hnone _]].
  - simpl. lia.
  - left. unfold result. rewrite Hrun. simpl in *.
    destruct t as [|[|[|t]]]; simpl in *; try lia; by simplify_eq.
  - by right.
Defined.

(** X6. With a cursor inside the roster, as many calls of [nextTurn] as
    there are players bring the cursor back to where it was, and every call
    leaves the cursor inside the roster. *)
Theorem nextTurn_full_lap (r : GameRoom) (i : nat) :
  currentTurnIndex r = Num i → (i < length (players r))%nat →
  Nat.iter (length (players r)) (exec nextTurn) r = r
  ∧ ∀ k, ∃ j, currentTurnIndex (Nat.iter k (exec nextTurn) r) = Num j
           ∧ (j < length (players r))%nat.
Proof.
  intros Hi Hlt.
  assert (players r ≠ []) as Hne.
  { intros Hnil. rewrite Hnil in Hlt. simpl in Hlt. lia. }
  split.
  - destruct (nextTurn_iter r i (length (players r)) Hi Hne) as [-> | [_ ->]];
      [|done].
    by rewrite lap_returns, <- Hi, set_currentTurnIndex_same.
  - intros k. destruct (nextTurn_iter r i k Hi Hne) as [-> | [_ ->]].
    + eexists. split; [done|]. apply Nat.mod_upper_bound. lia.
    + by exists i.
Qed.

Lemma nextTurn_full_lap_witness :
  let r := exec (handle (JOIN_ROOM "B" "Bob" "s2" 0))
            (exec (handle (JOIN_ROOM "A" "Alice" "s1" 0))
               (newGameRoom "room" 4 0)) in
  Nat.iter 2 (exec nextTurn) r = r.
Proof.
  intros r. refine (proj1 (nextTurn_full_lap r 0 eq_refl _)). simpl. lia.
Defined.

(** ** The handlers, as compositions of room and game state methods *)

Section handler_calculus.
Implicit Types (r : GameRoom) (p q cur : Player).

Lemma exec_try_catch (m : M unit) r : exec (try_catch m) r = exec m r.
Proof. unfold exec, try_catch. by destruct (m r) as [[[]|] r']. Qed.

Lemma exec_bind_ret {A B} (m : M A) (k : A → M B) r a r1 :
  m r = (Ret a, r1) → exec (m ≫= k) r = exec (k a) r1.
Proof. intros Hrun. unfold exec. run. by rewrite Hrun. Qed.

Lemma exec_bind_throw {A B} (m : M A) (k : A → M B) r r1 :
  m r = (Throw, r1) → exec (m ≫= k) r = r1.
Proof. intros Hrun. unfold exec. run. by rewrite Hrun. Qed.

Lemma exec_getState r : exec getState r = exec getCurrentPlayer r.
Proof.
  unfold exec. rewrite getState_cases.
  by destruct (getCurrentPlayer r) as [[cur|] r1].
Qed.

Lemma exec_getState_unit r :
  exec (getState;; mret ()) r = exec getCurrentPlayer r.
Proof.
  rewrite <- exec_getState. unfold exec. run.
  by destruct (getState r) as [[s|] r1].
Qed.

Lemma exec_getCurrentPlayer_idem r :
  exec getCurrentPlayer (exec getCurrentPlayer r) = exec getCurrentPlayer r.
Proof. unfold exec at 1. by rewrite getCurrentPlayer_idem. Qed.

(** What is left of a room when only the cursor may have moved. *)
Lemma getCurrentPlayer_keeps_room r :
  players (exec getCurrentPlayer r) = players r
  ∧ gameState (exec getCurrentPlayer r) = gameState r
  ∧ maxPlayers (exec getCurrentPlayer r) = maxPlayers r.
Proof. by destruct (getCurrentPlayer_only_cursor r) as [c ->]. Qed.

(** A player that [getCurrentPlayer] returns is in the roster and active,
    whatever the room. *)
Lemma getCurrentPlayer_Some r i cur r1 :
  getCurrentPlayer r = (Ret (Some (i, cur)), r1) →
  players r !! i = Some cur ∧ status cur = active
  ∧ players r1 = players r ∧ gameState r1 = gameState r.
Proof.
  intros Hrun. pose proof (getCurrentPlayer_keeps_room r) as (Hps & Hgs & _).
  unfold exec in *. rewrite Hrun in *. simpl in *.
  destruct (decide (players r = [])) as [Hnil|Hne].
  { by rewrite (getCurrentPlayer_empty r Hnil) in Hrun. }
  destruct (cursor_ok_or_not r) as [Hok|Hbad].
  - pose proof (getCurrentPlayer_spec r Hok) as Hspec. rewrite Hrun in Hspec.
    by destruct Hspec as (_ & Hi & Hact).
  - by rewrite (getCurrentPlayer_bad_cursor r Hne Hbad) in Hrun.
Qed.

Lemma exec_after_move r :
  players (exec after_move r) = (checkGameOver (gameState r) (players r)).2
  ∧ gameState (exec after_move r) = (checkGameOver (gameState r) (players r)).1.2.
Proof.
  unfold after_move. rewrite (exec_bind_ret _ _ _ _ _ (room_checkGameOver_effect r)).
  set (r2 := set_gameState _ _).
  destruct (checkGameOver (gameState r) (players r)).1.1.
  - rewrite exec_getState_unit. by destruct (getCurrentPlayer_keeps_room r2) as (-> & -> & _).
  - assert (nextTurn r2 = (Ret (), exec nextTurn r2)) as Hnext by done.
    rewrite (exec_bind_ret _ _ _ _ _ Hnext).
    set (r3 := exec nextTurn r2).
    assert (players r3 = players r2 ∧ gameState r3 = gameState r2) as [Hps Hgs] by done.
    destruct (getCurrentPlayer r3) as [[o|] r4] eqn:Hcur.
    + rewrite (exec_bind_ret _ _ _ _ _ Hcur), exec_getState_unit.
      replace r4 with (exec getCurrentPlayer r3) by (unfold exec; by rewrite Hcur).
      rewrite exec_getCurrentPlayer_idem.
      destruct (getCurrentPlayer_keeps_room r3) as (-> & -> & _).
      by rewrite Hps, Hgs.
    + rewrite (exec_bind_throw _ _ _ _ Hcur).
      replace r4 with (exec getCurrentPlayer r3) by (unfold exec; by rewrite Hcur).
      destruct (getCurrentPlayer_keeps_room r3) as (-> & -> & _).
      by rewrite Hps, Hgs.
Qed.

Lemma exec_handleRollDice_other r playerId roll :
  (∀ i cur, result getCurrentPlayer r = Ret (Some (i, cur)) → id cur ≠ playerId) →
  exec (handleRollDice playerId roll) r = exec getCurrentPlayer r.
Proof.
  intros Hother. unfold handleRollDice. rewrite exec_try_catch.
  unfold result in Hother.
  destruct (getCurrentPlayer r) as [[[[i cur]|]|] r1] eqn:Hcur.
  - rewrite (exec_bind_ret _ _ _ _ _ Hcur).
    rewrite bool_decide_eq_true_2 by by apply (Hother i cur).
    unfold exec. by rewrite Hcur.
  - rewrite (exec_bind_ret _ _ _ _ _ Hcur). unfold exec. by rewrite Hcur.
  - rewrite (exec_bind_throw _ _ _ _ Hcur). unfold exec. by rewrite Hcur.
Qed.

Lemma exec_handleHold_other r playerId :
  (∀ i cur, result getCurrentPlayer r = Ret (Some (i, cur)) → id cur ≠ playerId) →
  exec (handleHold playerId) r = exec getCurrentPlayer r.
Proof.
  intros Hother. unfold handleHold. rewrite exec_try_catch.
  unfold result in Hother.
  destruct (getCurrentPlayer r) as [[[[i cur]|]|] r1] eqn:Hcur.
  - rewrite (exec_bind_ret _ _ _ _ _ Hcur).
    rewrite bool_decide_eq_true_2 by by apply (Hother i cur).
    unfold exec. by rewrite Hcur.
  - rewrite (exec_bind_ret _ _ _ _ _ Hcur). unfold exec. by rewrite Hcur.
  - rewrite (exec_bind_throw _ _ _ _ Hcur). unfold exec. by rewrite Hcur.
Qed.

Lemma exec_handleRollDice_turn r playerId roll i cur r1 :
  getCurrentPlayer r = (Ret (Some (i, cur)), r1) → id cur = playerId →
  exec (handleRollDice playerId roll) r =
    exec after_move (exec (room_updateScore i cur roll) r1).
Proof.
  intros Hcur Hid. unfold handleRollDice. rewrite exec_try_catch.
  rewrite (exec_bind_ret _ _ _ _ _ Hcur).
  rewrite bool_decide_eq_false_2 by by intros [].
  assert (∃ res, room_updateScore i cur roll r1 =
                   (Ret res, exec (room_updateScore i cur roll) r1))
    as [res Hupd].
  { unfold exec, room_updateScore. run.
    destruct (updateScore (gameState r1) cur roll) as [[res gs'] cur'].
    by eexists. }
  by rewrite (exec_bind_ret _ _ _ _ _ Hupd).
Qed.

Lemma exec_handleHold_turn r playerId i cur r1 :
  getCurrentPlayer r = (Ret (Some (i, cur)), r1) → id cur = playerId →
  ∃ r2, players r2 = players (exec (room_hold i cur) r1)
    ∧ gameState r2 = gameState (exec (room_hold i cur) r1)
    ∧ exec (handleHold playerId) r = exec after_move r2.
Proof.
  intros Hcur Hid. unfold handleHold. rewrite exec_try_catch.
  rewrite (exec_bind_ret _ _ _ _ _ Hcur).
  rewrite bool_decide_eq_false_2 by by intros [].
  assert (∃ res, room_hold i cur r1 = (Ret res, exec (room_hold i cur) r1))
    as [res Hhold].
  { unfold exec, room_hold. run.
    destruct (hold (gameState r1) cur) as [res cur']. by eexists. }
  rewrite (exec_bind_ret _ _ _ _ _ Hhold).
  set (r2 := exec (room_hold i cur) r1).
  destruct (getState r2) as [[s|] r3] eqn:Hstate.
  - exists r3. rewrite (exec_bind_ret _ _ _ _ _ Hstate).
    replace r3 with (exec getState r2) by (unfold exec; by rewrite Hstate).
    rewrite exec_getState.
    by destruct (getCurrentPlayer_keeps_room r2) as (-> & -> & _).
  - (* [getState] cannot throw here: the cursor rests on the player *)
    exfalso. rewrite getState_cases in Hstate.
    destruct (getCurrentPlayer_Some r i cur r1 Hcur) as (Hlook & Hact & Hps & _).
    assert (cursor_ok r2) as Hok.
    { destruct (decide (players r = [])) as [Hnil|Hne];
        [by rewrite Hnil in Hlook|].
      destruct (cursor_ok_or_not r) as [Hok|Hbad];
        [|by rewrite (getCurrentPlayer_bad_cursor r Hne Hbad) in Hcur].
      pose proof (getCurrentPlayer_spec r Hok) as Hspec. rewrite Hcur in Hspec.
      destruct Hspec as (-> & _). exists i.
      split; [by unfold r2; rewrite room_hold_effect|].
      right. unfold r2. rewrite room_hold_effect. simpl. rewrite length_insert.
      by eapply lookup_lt_Some. }
    pose proof (getCurrentPlayer_spec r2 Hok) as Hspec.
    by destruct (getCurrentPlayer r2) as [[o|] r4].
Qed.

End handler_calculus.

Section moves.
Implicit Types (gs : GameState) (p q cur : Player) (ps : list Player).

(** [checkGameOver] changes a player only by promoting a held player to
    won. *)
Lemma checkGameOver_lookup gs ps i p :
  ps !! i = Some p →
  ∃ p', (checkGameOver gs ps).2 !! i = Some p'
    ∧ score p' = score p ∧ id p' = id p
    ∧ (p' = p ∨ (candidate p ∧ status p' = won)).
Proof.
  intros Hi. unfold checkGameOver. destruct (gameOver gs).
  { exists p. by repeat split; [..|left]. }
  case_bool_decide; [|exists p; by repeat split; [..|left]].
  rewrite determineWinner_cases.
  pose proof (reduce_validPlayers ps) as Hred.
  destruct (reduce better (validPlayers ps)) as [[k w]|]; simpl;
    [|exists p; by repeat split; [..|left]].
  destruct Hred as (Hk & Hw & _). destruct (decide (k = i)) as [->|Hne].
  - rewrite list_lookup_alter_eq, Hi. simpl. exists (set_status won p).
    repeat split. right. split; [|done]. by simplify_eq.
  - rewrite list_lookup_alter_ne by done. exists p. by repeat split; [..|left].
Qed.

Lemma checkGameOver_all_done gs ps :
  (∀ p, p ∈ ps → status p ≠ active) → gameOver (checkGameOver gs ps).1.2 = true.
Proof.
  intros Hnone. unfold checkGameOver. destruct (gameOver gs) eqn:Hover; [done|].
  rewrite bool_decide_eq_true_2 by by apply filter_length_0.
  pose proof (determineWinner_gameOver (set_gameOver true gs) ps) as (Hg & _).
  by destruct (determineWinner _ _).
Qed.

End moves.

(** X7. A roll or a hold sent by anyone but the player whose turn it is (or
    when nobody has the turn) changes neither the roster nor the game state:
    the room is left as a call of [getCurrentPlayer] leaves it, which may
    have moved the cursor to the player whose turn it is. *)
Theorem not_your_turn_changes_nothing (r : GameRoom) (playerId : string) (roll : Z) :
  (∀ i cur, result getCurrentPlayer r = Ret (Some (i, cur)) → id cur ≠ playerId) →
  exec (handle (ROLL_DICE playerId roll)) r = exec getCurrentPlayer r
  ∧ exec (handle (HOLD playerId)) r = exec getCurrentPlayer r
  ∧ players (exec getCurrentPlayer r) = players r
  ∧ gameState (exec getCurrentPlayer r) = gameState r.
Proof.
  intros Hother. simpl.
  rewrite exec_handleRollDice_other, exec_handleHold_other by done.
  by destruct (getCurrentPlayer_keeps_room r) as (-> & -> & _).
Qed.

Lemma not_your_turn_changes_nothing_witness :
  let r := exec (handle (JOIN_ROOM "B" "Bob" "s2" 0))
            (exec (handle (JOIN_ROOM "A" "Alice" "s1" 0))
               (newGameRoom "room" 4 0)) in
  exec (handle (ROLL_DICE "B" 6)) r = exec getCurrentPlayer r.
Proof.
  intros r. apply (not_your_turn_changes_nothing r "B" 6).
  intros i cur Hcur. vm_compute in Hcur. by simplify_eq.
Defined.

(** X8. A roll by the player whose turn it is leaves the room with exactly
    the players and the game state that [updateScore] on that player
    followed by [checkGameOver] on the roster produce.  When the roll
    brings the score to the target, the player is won with that score, the
    game is over and the player is the winner. *)
Theorem roll_on_turn (r r1 : GameRoom) (playerId : string) (roll : Z)
    (i : nat) (cur : Player) :
  getCurrentPlayer r = (Ret (Some (i, cur)), r1) → id cur = playerId →
  let r' := exec (handle (ROLL_DICE playerId roll)) r in
  let moved := updateScore (gameState r) cur roll in
  let checked := checkGameOver moved.1.2 (<[i:=moved.2]> (players r)) in
  players r' = checked.2 ∧ gameState r' = checked.1.2
  ∧ (score cur + roll = targetScore (gameState r) →
       players r' = <[i:=set_status won (set_score (score cur + roll) cur)]> (players r)
       ∧ gameOver (gameState r') = true
       ∧ winner (gameState r') = Some playerId).
Proof.
  intros Hcur Hid r' moved checked.
  destruct (getCurrentPlayer_Some r i cur r1 Hcur) as (Hi & Hact & Hps & Hgs).
  assert (players r' = checked.2 ∧ gameState r' = checked.1.2) as [Hps' Hgs'].
  { unfold r'. simpl. rewrite (exec_handleRollDice_turn r _ roll i cur r1 Hcur Hid).
    destruct (exec_after_move (exec (room_updateScore i cur roll) r1)) as [-> ->].
    rewrite room_updateScore_effect. simpl. by rewrite Hps, Hgs. }
  split; [done|]. split; [done|]. intros Hperfect.
  rewrite Hps', Hgs'. unfold checked, moved. rewrite updateScore_cases.
  rewrite bool_decide_eq_false_2 by lia. rewrite bool_decide_eq_true_2 by done.
  simpl. by rewrite Hid.
Qed.

Lemma roll_on_turn_witness :
  let a := set_score 12 (newPlayer "A" "Alice" "s1" 0) in
  let b := newPlayer "B" "Bob" "s2" 0 in
  let r := set_players [a; b] (newGameRoom "room" 4 0) in
  winner (gameState (exec (handle (ROLL_DICE "A" 6)) r)) = Some "A".
Proof.
  intros a b r.
  destruct (roll_on_turn r r "A" 6 0 a eq_refl eq_refl) as (_ & _ & Hperfect).
  by destruct (Hperfect eq_refl) as (_ & _ & Hwinner).
Defined.

(** X9. A hold by the player whose turn it is leaves the room with exactly
    the players and the game state that [checkGameOver] produces once that
    player is held: [hold] never answers with an error there.  The player
    keeps id and score and ends held, or won when the round ends in the
    player's favour; and when no other player is active the game is over. *)
Theorem hold_on_turn (r r1 : GameRoom) (playerId : string) (i : nat) (cur : Player) :
  getCurrentPlayer r = (Ret (Some (i, cur)), r1) → id cur = playerId →
  let r' := exec (handle (HOLD playerId)) r in
  let checked := checkGameOver (gameState r) (<[i:=set_status held cur]> (players r)) in
  players r' = checked.2 ∧ gameState r' = checked.1.2
  ∧ (∃ p', players r' !! i = Some p' ∧ score p' = score cur ∧ id p' = playerId
       ∧ (status p' = held ∨ status p' = won))
  ∧ ((∀ j q, players r !! j = Some q → j ≠ i → status q ≠ active) →
       gameOver (gameState r') = true).
Proof.
  intros Hcur Hid r' checked.
  destruct (getCurrentPlayer_Some r i cur r1 Hcur) as (Hi & Hact & Hps & Hgs).
  assert ((hold (gameState r1) cur).2 = set_status held cur) as Hheld.
  { unfold hold. by rewrite bool_decide_eq_false_2 by by intros []. }
  assert (players r' = checked.2 ∧ gameState r' = checked.1.2) as [Hps' Hgs'].
  { unfold r'. simpl.
    destruct (exec_handleHold_turn r _ i cur r1 Hcur Hid) as (r2 & Hps2 & Hgs2 & ->).
    destruct (exec_after_move r2) as [-> ->].
    rewrite Hps2, Hgs2, room_hold_effect. simpl. by rewrite Hheld, Hps, Hgs. }
  pose proof (lookup_lt_Some _ _ _ Hi) as Hlt.
  split; [done|]. split; [done|]. split.
  - destruct (checkGameOver_lookup (gameState r)
                (<[i:=set_status held cur]> (players r)) i (set_status held cur))
      as (p' & Hp' & Hscore & Hid' & Hst).
    { by apply list_lookup_insert_eq. }
    exists p'. rewrite Hps'. split; [done|]. split; [done|]. split; [by rewrite Hid'|].
    destruct Hst as [->|[_ Hwon]]; [by left | by right].
  - intros Hothers. rewrite Hgs'. apply checkGameOver_all_done.
    intros p Hp. apply list_elem_of_lookup in Hp as [j Hj].
    destruct (decide (j = i)) as [->|Hne].
    + rewrite list_lookup_insert_eq in Hj by done. by simplify_eq.
    + rewrite list_lookup_insert_ne in Hj by done. by apply (Hothers j).
Qed.

Lemma hold_on_turn_witness :
  let a := set_score 12 (newPlayer "A" "Alice" "s1" 0) in
  let b := set_status bust (set_score 20 (newPlayer "B" "Bob" "s2" 0)) in
  let r := set_players [a; b] (newGameRoom "room" 4 0) in
  gameOver (gameState (exec (handle (HOLD "A")) r)) = true.
Proof.
  intros a b r.
  destruct (hold_on_turn r r "A" 0 a eq_refl eq_refl) as (_ & _ & _ & Hover).
  apply Hover. intros j q Hj Hne.
  destruct j as [|[|j]]; simpl in Hj; [done| |done]. by simplify_eq.
Defined.

(** ** Joining, leaving and looking up *)

Section roster.
Implicit Types (r : GameRoom) (p q player : Player).

Lemma addPlayer_accepted player r :
  result (addPlayer player) r = Ret true →
  list_find (λ p, id p = id player) (players r) = None
  ∧ players (exec (addPlayer player) r) = players r ++ [player].
Proof.
  unfold result, exec, addPlayer. run. case_bool_decide; [done|].
  destruct (list_find _ _) eqn:Hfind; [done|]. intros _. split; [done|].
  simpl. by destruct (_ && _).
Qed.

Lemma do_call_runs c r : do_call c r = (Ret (), exec (do_call c) r).
Proof.
  destruct c as [player|playerId|]; simpl; [| |done].
  - unfold exec, addPlayer. run. case_bool_decide; [done|].
    destruct (list_find _ _); [done|]. simpl. by destruct (_ && _).
  - destruct (list_find (λ p, id p = playerId) (players r)) as [[i p]|] eqn:Hfind.
    + unfold exec. run. by rewrite (removePlayer_found _ _ _ _ Hfind).
    + unfold exec, removePlayer. run. by rewrite Hfind.
Qed.

Lemma do_calls_cons c cs r :
  exec (do_calls (c :: cs)) r = exec (do_calls cs) (exec (do_call c) r).
Proof. simpl. by rewrite (exec_bind_ret _ _ _ _ _ (do_call_runs c r)). Qed.

Lemma do_call_NaN c r :
  currentTurnIndex r = NaN → currentTurnIndex (exec (do_call c) r) = NaN.
Proof.
  intros Hnan. destruct c as [player|playerId|]; simpl.
  - replace (exec (addPlayer player;; mret ()) r) with (exec (addPlayer player) r).
    + by destruct (addPlayer_effect player r) as [->|(_ & _ & gs & _ & _ & ->)].
    + unfold exec. run. by destruct (addPlayer player r) as [[b|] r'].
  - destruct (list_find (λ p, id p = playerId) (players r)) as [[i p]|] eqn:Hfind.
    + unfold exec. run. rewrite (removePlayer_found _ _ _ _ Hfind). simpl.
      rewrite Hnan. simpl. by case_bool_decide.
    + unfold exec, removePlayer. run. by rewrite Hfind.
  - unfold exec, nextTurn. run. by rewrite Hnan.
Qed.

End roster.

(** X10. A [NaN] cursor stays: no sequence of [addPlayer], [removePlayer]
    and [nextTurn] calls brings it back to a number, and neither does
    [getCurrentPlayer]; [resetGame] does, setting it to 0. *)
Theorem NaN_cursor_persists (cs : list call) (r : GameRoom) :
  currentTurnIndex r = NaN →
  currentTurnIndex (exec (do_calls cs) r) = NaN
  ∧ currentTurnIndex (exec getCurrentPlayer (exec (do_calls cs) r)) = NaN
  ∧ currentTurnIndex (exec resetGame (exec (do_calls cs) r)) = Num 0.
Proof.
  intros Hnan.
  assert (currentTurnIndex (exec (do_calls cs) r) = NaN) as Hcs.
  { revert r Hnan. induction cs as [|c cs IH]; intros r Hnan; [done|].
    rewrite do_calls_cons. by apply IH, do_call_NaN. }
  split; [done|]. split; [|by rewrite resetGame_effect].
  set (r' := exec (do_calls cs) r) in *.
  destruct (decide (players r' = [])) as [Hnil|Hne].
  - unfold exec at 1. by rewrite (getCurrentPlayer_empty r' Hnil).
  - unfold exec at 1. rewrite (getCurrentPlayer_bad_cursor r' Hne); [done|].
    intros (i & Hi & _). congruence.
Qed.

Lemma NaN_cursor_persists_witness :
  let r := exec nextTurn (newGameRoom "room" 4 0) in
  currentTurnIndex
    (exec (do_calls [AddPlayer (newPlayer "A" "Alice" "s1" 0); NextTurn;
                     RemovePlayer "A"]) r) = NaN.
Proof. intros r. by apply (NaN_cursor_persists _ r). Defined.

(** X11. A player that [addPlayer] accepted is found by [getPlayer] under
    its id, at the end of the roster; removing that id again gives the
    roster back as it was, and sets [gameOver] when fewer than two players
    remain. *)
Theorem addPlayer_then_lookup (player : Player) (r : GameRoom) :
  result (addPlayer player) r = Ret true →
  let r' := exec (addPlayer player) r in
  result (getPlayer (id player)) r' = Ret (Some (length (players r), player))
  ∧ result (removePlayer (id player)) r' = Ret true
  ∧ players (exec (removePlayer (id player)) r') = players r
  ∧ ((length (players r) < 2)%nat →
       gameOver (gameState (exec (removePlayer (id player)) r')) = true).
Proof.
  intros Hadd r'. destruct (addPlayer_accepted player r Hadd) as [Hfresh Hps].
  assert (list_find (λ p, id p = id player) (players r')
          = Some (length (players r), player)) as Hfind.
  { unfold r'. rewrite Hps, list_find_app_r by done. simpl.
    by rewrite decide_True. }
  split; [by unfold result, getPlayer; run; rewrite Hfind|].
  assert (delete (length (players r)) (players r') = players r) as Hdel.
  { unfold r'. by rewrite Hps, delete_middle, app_nil_r. }
  unfold result, exec. rewrite (removePlayer_found _ _ _ _ Hfind). simpl.
  rewrite Hdel. split; [done|]. split.
  - by destruct (num_ge _ _); simpl; case_bool_decide.
  - intros Hlen. destruct (num_ge _ _); simpl;
      by rewrite bool_decide_eq_true_2.
Qed.

Lemma addPlayer_then_lookup_witness :
  let a := newPlayer "A" "Alice" "s1" 0 in
  result (getPlayer "A") (exec (addPlayer a) (newGameRoom "room" 4 0))
    = Ret (Some (0%nat, a)).
Proof.
  intros a.
  exact (proj1 (addPlayer_then_lookup a (newGameRoom "room" 4 0) eq_refl)).
Defined.

(** X12. In a roster without a repeated id, a removed player is gone:
    [getPlayer] on that id answers null, and a second [removePlayer]
    returns false and changes nothing. *)
Theorem removePlayer_then_lookup (playerId : string) (r : GameRoom) :
  ids_unique r →
  let r' := exec (removePlayer playerId) r in
  result (getPlayer playerId) r' = Ret None
  ∧ removePlayer playerId r' = (Ret false, r').
Proof.
  intros Huniq r'.
  assert (list_find (λ p, id p = playerId) (players r') = None) as Hgone.
  { unfold r'.
    destruct (list_find (λ p, id p = playerId) (players r)) as [[i p]|] eqn:Hfind.
    - unfold exec. rewrite (removePlayer_found _ _ _ _ Hfind).
      replace (players _) with (delete i (players r))
        by (simpl; destruct (num_ge _ _); simpl; by case_bool_decide).
      apply list_find_Some in Hfind as (Hi & Hid & _).
      apply list_find_None, Forall_forall. intros q Hq Hqid.
      apply list_elem_of_lookup in Hq as [j Hj].
      rewrite list_lookup_delete in Hj.
      assert ((id <$> players r) !! i = Some playerId) as Hi'
        by by rewrite list_lookup_fmap, Hi; simpl; rewrite Hid.
      destruct (decide (j < i)%nat) as [Hlt|Hge].
      + assert ((id <$> players r) !! j = Some playerId) as Hj'
          by by rewrite list_lookup_fmap, Hj; simpl; rewrite Hqid.
        pose proof (NoDup_lookup _ _ _ _ Huniq Hi' Hj'). lia.
      + assert ((id <$> players r) !! S j = Some playerId) as Hj'
          by by rewrite list_lookup_fmap, Hj; simpl; rewrite Hqid.
        pose proof (NoDup_lookup _ _ _ _ Huniq Hi' Hj'). lia.
    - unfold exec, removePlayer. run. by rewrite Hfind. }
  split.
  - unfold result, getPlayer. run. by rewrite Hgone.
  - unfold removePlayer. run. by rewrite Hgone.
Qed.

Lemma removePlayer_then_lookup_witness :
  let r := exec (addPlayer (newPlayer "B" "Bob" "s2" 0))
             (exec (addPlayer (newPlayer "A" "Alice" "s1" 0))
                (newGameRoom "room" 4 0)) in
  result (getPlayer "A") (exec (removePlayer "A") r) = Ret None.
Proof.
  intros r. refine (proj1 (removePlayer_then_lookup "A" r _)).
  unfold ids_unique. simpl. apply NoDup_cons. split.
  - intros Hin. apply list_elem_of_singleton in Hin. done.
  - apply NoDup_singleton.
Defined.

(** ** A new game *)

(** X13. [resetGame], in any room (a [NaN] cursor included): every player
    is active with score 0 and keeps id and name, in join order; there is
    no winner and the game is not over; the game is started exactly when
    two players or more are present; the turn goes to the first player;
    and a second [resetGame] changes nothing. *)
Theorem resetGame_spec (r : GameRoom) :
  let r' := exec resetGame r in
  players r' = reset_player <$> players r
  ∧ (∀ p, p ∈ players r' → score p = 0 ∧ status p = active)
  ∧ id <$> players r' = id <$> players r
  ∧ name <$> players r' = name <$> players r
  ∧ winner (gameState r') = None ∧ gameOver (gameState r') = false
  ∧ (gameStarted (gameState r') = true ↔ (2 ≤ length (players r))%nat)
  ∧ getCurrentPlayer r' = (Ret ((λ p, (0%nat, p)) <$> head (players r')), r')
  ∧ exec resetGame r' = r'.
Proof.
  intros r'. unfold r'. rewrite !resetGame_effect. simpl.
  split; [done|]. split.
  { intros p Hp. apply list_elem_of_fmap in Hp as (q & -> & _). done. }
  split; [by rewrite <- list_fmap_compose|].
  split; [by rewrite <- list_fmap_compose|].
  split; [by case_bool_decide|]. split; [by case_bool_decide|]. split.
  { case_bool_decide; simpl; split; intros; done || lia. }
  split.
  - unfold getCurrentPlayer. run. rewrite length_fmap.
    destruct (players r) as [|p l]; [done|]. simpl. run.
    by destruct (bool_decide (2 ≤ S (length l))%nat).
  - rewrite length_fmap, <- list_fmap_compose.
    replace (reset_player ∘ reset_player) with reset_player by done.
    by case_bool_decide.
Qed.

(** ** Ending a round *)

Section round_end.
Implicit Types (gs : GameState) (p q w : Player) (ps : list Player).

Lemma alter_twice {A} (f : A → A) (l : list A) i :
  (∀ x, f (f x) = f x) → alter f i (alter f i l) = alter f i l.
Proof.
  intros Hf. revert i. induction l as [|a l IH]; intros [|i]; simpl; try done.
  - by rewrite Hf.
  - f_equal. apply IH.
Qed.

(** After [determineWinner], the same player is picked again. *)
Lemma reduce_validPlayers_again ps i w :
  reduce better (validPlayers ps) = Some (i, w) →
  reduce better (validPlayers (alter (set_status won) i ps))
    = Some (i, set_status won w).
Proof.
  intros Hred. pose proof (reduce_validPlayers ps) as Hspec.
  rewrite Hred in Hspec. destruct Hspec as (Hi & Hw & Hmax).
  set (ps' := alter (set_status won) i ps).
  assert (ps' !! i = Some (set_status won w)) as Hi'
    by by unfold ps'; rewrite list_lookup_alter_eq, Hi.
  assert (∀ j q', ps' !! j = Some q' → candidate q' →
            ∃ q, ps !! j = Some q ∧ candidate q ∧ score q = score q') as Hback.
  { intros j q' Hj Hq'. unfold ps' in Hj. destruct (decide (i = j)) as [<-|Hne].
    - rewrite list_lookup_alter_eq, Hi in Hj. simpl in Hj. simplify_eq.
      exists w. by repeat split.
    - rewrite list_lookup_alter_ne in Hj by done. exists q'. by repeat split. }
  pose proof (reduce_validPlayers ps') as Hspec'.
  destruct (reduce better (validPlayers ps')) as [[k w']|].
  - destruct Hspec' as (Hk & Hw' & Hmax').
    destruct (Hback k w' Hk Hw') as (q & Hq & Hqc & Hqs).
    destruct (Hmax k q Hq Hqc) as [Hle Hlt].
    assert (candidate (set_status won w)) as Hwon by by right.
    destruct (Hmax' i (set_status won w) Hi' Hwon) as [Hle' Hlt'].
    simpl in *.
    assert (k = i) as ->.
    { destruct (lt_eq_lt_dec k i) as [[Hki|Hki]|Hki]; [|done|].
      - specialize (Hlt Hki). lia.
      - specialize (Hlt' Hki). lia. }
    by simplify_eq.
  - exfalso. apply (Hspec' (set_status won w)); [|by right].
    by eapply list_elem_of_lookup_2.
Qed.

End round_end.

(** X14. Calling [determineWinner] again picks the same winner and changes
    nothing more. *)
Theorem determineWinner_idempotent (gs : GameState) (players : list Player) :
  determineWinner (determineWinner gs players).1 (determineWinner gs players).2
    = determineWinner gs players.
Proof.
  rewrite (determineWinner_cases gs players).
  destruct (reduce better (validPlayers players)) as [[i w]|] eqn:Hred; simpl.
  - rewrite determineWinner_cases, (reduce_validPlayers_again _ _ _ Hred). simpl.
    by rewrite alter_twice.
  - by rewrite determineWinner_cases, Hred.
Qed.

(** X15. Calling [checkGameOver] again returns the same answer and changes
    nothing more; and once it has returned true, it returns true whatever
    happens to the players. *)
Theorem checkGameOver_idempotent (gs : GameState) (players : list Player) :
  let '(over, gs', players') := checkGameOver gs players in
  checkGameOver gs' players' = (over, gs', players')
  ∧ (over = true → ∀ ps, checkGameOver gs' ps = (true, gs', ps)).
Proof.
  unfold checkGameOver. destruct (gameOver gs) eqn:Hover.
  { by rewrite Hover. }
  case_bool_decide as Hnone.
  - pose proof (determineWinner_gameOver (set_gameOver true gs) players) as (Hg & _).
    destruct (determineWinner _ _) as [gs' ps']. simpl in *. by rewrite Hg.
  - rewrite Hover. by rewrite bool_decide_eq_false_2.
Qed.

Lemma checkGameOver_idempotent_witness :
  let a := set_status held (set_score 15 (newPlayer "A" "Alice" "s1" 0)) in
  let b := newPlayer "B" "Bob" "s2" 0 in
  checkGameOver (checkGameOver newGameState [a]).1.2 [b]
    = (true, (checkGameOver newGameState [a]).1.2, [b]).
Proof.
  intros a b. pose proof (checkGameOver_idempotent newGameState [a]) as Hspec.
  destruct (checkGameOver newGameState [a]) as [[over gs'] ps'] eqn:Hrun.
  assert (over = true) as -> by (by vm_compute in Hrun; simplify_eq).
  by destruct Hspec as [_ Hall]; apply Hall.
Defined.

(** ** Leaving during a round, and what the clients are told *)

Section leaving.
Implicit Types (r : GameRoom) (p q cur : Player).

Lemma getCurrentPlayer_None r r1 :
  getCurrentPlayer r = (Ret None, r1) → ∀ q, q ∈ players r → status q ≠ active.
Proof.
  intros Hrun q Hq. destruct (decide (players r = [])) as [Hnil|Hne].
  { rewrite Hnil in Hq. by apply elem_of_nil in Hq. }
  destruct (cursor_ok_or_not r) as [Hok|Hbad].
  - pose proof (getCurrentPlayer_spec r Hok) as Hspec. rewrite Hrun in Hspec.
    destruct Hspec as [_ Hnone]. by apply Hnone.
  - by rewrite (getCurrentPlayer_bad_cursor r Hne Hbad) in Hrun.
Qed.


End leaving.



(** X17. A snapshot that [getState] returns lists the roster in join order
    and mirrors the game state; its [currentTurn], when present, is the
    non-empty id of an active player of the snapshot, and it is absent only
    when no player is active or the player whose turn it is has the empty
    id. *)
Theorem getState_snapshot (r r1 : GameRoom) (s : RoomState) :
  getState r = (Ret s, r1) →
  rs_roomId s = roomId r ∧ rs_players s = toJSON <$> players r
  ∧ rs_gameStarted s = gameStarted (gameState r)
  ∧ rs_gameOver s = gameOver (gameState r)
  ∧ rs_winner s = winner (gameState r)
  ∧ (∀ playerId, rs_currentTurn s = Some playerId →
       playerId ≠ ""
       ∧ ∃ pd, pd ∈ rs_players s ∧ pd_id pd = playerId ∧ pd_status pd = active)
  ∧ (rs_currentTurn s = None →
       (∀ pd, pd ∈ rs_players s → pd_status pd ≠ active)
       ∨ ∃ pd, pd ∈ rs_players s ∧ pd_id pd = "" ∧ pd_status pd = active).
Proof.
  intros Hrun. rewrite getState_cases in Hrun.
  pose proof (getCurrentPlayer_frame r) as (Hps & Hgs & Hid).
  unfold exec in *.
  destruct (getCurrentPlayer r) as [[cur|] r2] eqn:Hcur; [|done].
  simpl in *. simplify_eq. simpl. rewrite Hgs, Hid.
  do 5 (split; [done|]). split.
  - intros playerId Hturn. destruct cur as [[i p]|]; [|done]. simpl in Hturn.
    unfold or_null in Hturn. case_bool_decide; [done|]. simplify_eq.
    split; [done|].
    destruct (getCurrentPlayer_Some r i p r1 Hcur) as (Hi & Hact & _).
    exists (toJSON p). split; [|done].
    apply list_elem_of_fmap. exists p. split; [done|].
    by eapply list_elem_of_lookup_2.
  - intros Hturn. destruct cur as [[i p]|].
    + right. simpl in Hturn. unfold or_null in Hturn.
      case_bool_decide as Hempty; [|done].
      destruct (getCurrentPlayer_Some r i p r1 Hcur) as (Hi & Hact & _).
      exists (toJSON p). split; [|done].
      apply list_elem_of_fmap. exists p. split; [done|].
      by eapply list_elem_of_lookup_2.
    + left. intros pd Hpd. apply list_elem_of_fmap in Hpd as (q & -> & Hq).
      simpl. by apply (getCurrentPlayer_None r r1 Hcur).
Qed.

Lemma getState_snapshot_witness :
  let r := exec (handle (JOIN_ROOM "A" "Alice" "s1" 0)) (newGameRoom "room" 4 0) in
  ∃ s r1, getState r = (Ret s, r1) ∧ rs_players s = toJSON <$> players r.
Proof.
  intros r. destruct (getState r) as [o r1] eqn:Hrun.
  assert (∃ s, o = Ret s) as [s ->] by (vm_compute in Hrun; simplify_eq; by eexists).
  exists s, r1. split; [done|].
  exact (proj1 (proj2 (getState_snapshot r r1 s Hrun))).
Defined.

(** X18. A join with an empty name, into a full room, or under an id that
    is present leaves the room exactly as it was, cursor included.  An
    accepted join appends a new player, active with score 0, and touches no
    other player. *)
Theorem join_rejected_or_appended (r : GameRoom)
    (playerId playerName socketId : string) (now : Z) :
  let r' := exec (handle (JOIN_ROOM playerId playerName socketId now)) r in
  (playerName = "" ∨ maxPlayers r ≤ Z.of_nat (length (players r))
   ∨ (∃ p, p ∈ players r ∧ id p = playerId) → r' = r)
  ∧ (playerName ≠ "" → Z.of_nat (length (players r)) < maxPlayers r →
     (∀ p, p ∈ players r → id p ≠ playerId) →
     players r' = players r ++ [newPlayer playerId playerName socketId now]).
Proof.
  intros r'. unfold r'. simpl. unfold handleJoinRoom. rewrite exec_try_catch.
  set (player := newPlayer playerId playerName socketId now).
  split.
  - intros Hrej. case_bool_decide as Hname; [done|].
    assert (addPlayer player r = (Ret false, r)) as Hadd.
    { unfold addPlayer. run. case_bool_decide as Hfull; [done|].
      destruct Hrej as [?|[?|(p & Hp & Hid)]]; [done|lia|].
      destruct (list_find _ _) eqn:Hfind; [done|].
      apply list_find_None in Hfind. rewrite Forall_forall in Hfind.
      by destruct (Hfind p Hp). }
    by rewrite (exec_bind_ret _ _ _ _ _ Hadd).
  - intros Hname Hroom Hfresh. rewrite bool_decide_eq_false_2 by done.
    assert (result (addPlayer player) r = Ret true) as Hres.
    { unfold result, addPlayer. run. rewrite bool_decide_eq_false_2 by lia.
      destruct (list_find _ _) as [[i p]|] eqn:Hfind.
      - apply list_find_Some in Hfind as (Hi & Hid & _).
        destruct (Hfresh p); [by eapply list_elem_of_lookup_2 | done].
      - simpl. by destruct (_ && _). }
    destruct (addPlayer_accepted player r Hres) as [_ Hps].
    assert (addPlayer player r = (Ret true, exec (addPlayer player) r)) as Hadd.
    { unfold result, exec in *. destruct (addPlayer player r) as [o r1].
      simpl in *. by subst o. }
    rewrite (exec_bind_ret _ _ _ _ _ Hadd). simpl.
    set (r2 := exec (addPlayer player) r) in *.
    destruct (getState r2) as [[s|] r3] eqn:Hstate.
    + rewrite (exec_bind_ret _ _ _ _ _ Hstate), exec_getState_unit.
      replace r3 with (exec getState r2) by (unfold exec; by rewrite Hstate).
      destruct (getCurrentPlayer_keeps_room (exec getState r2)) as (-> & _).
      rewrite exec_getState.
      by destruct (getCurrentPlayer_keeps_room r2) as (-> & _).
    + rewrite (exec_bind_throw _ _ _ _ Hstate).
      replace r3 with (exec getState r2) by (unfold exec; by rewrite Hstate).
      rewrite exec_getState.
      by destruct (getCurrentPlayer_keeps_room r2) as (-> & _).
Qed.

Lemma join_rejected_or_appended_witness :
  let r := exec (handle (JOIN_ROOM "A" "Alice" "s1" 0)) (newGameRoom "room" 1 0) in
  exec (handle (JOIN_ROOM "B" "Bob" "s2" 0)) r = r.
Proof.
  intros r. apply (proj1 (join_rejected_or_appended r "B" "Bob" "s2" 0)).
  right. left. simpl. lia.
Defined.

(** ** The registry *)

Section registry.
Implicit Types (rooms : gmap string GameRoom) (room : GameRoom) (k : string).

Lemma to_clean_result now room :
  result (to_clean now) room =
    Ret (bool_decide (length (players room) = 0)%nat
         || (bool_decide (now - createdAt room > ROOM_TIMEOUT)
             && bool_decide (length (players room) < 2)%nat)).
Proof. done. Qed.

(** A room is kept exactly when it has players and is either young or has
    two players or more. *)
Lemma kept_iff now room :
  result (to_clean now) room ≠ Ret true ↔
    players room ≠ []
    ∧ ((2 ≤ length (players room))%nat ∨ now - createdAt room ≤ ROOM_TIMEOUT).
Proof.
  rewrite to_clean_result. rewrite <- length_zero_iff_nil.
  repeat case_bool_decide; simpl; split; try done; try lia;
    intros Hkept; try (by destruct Hkept); try (split; [done|lia]).
  all: destruct Hkept as [_ [?|?]]; lia.
Qed.

End registry.

(** X19. A sweep of the registry keeps a room exactly when it has players
    and either is at most 30 minutes old or holds two players or more; the
    rooms it keeps are untouched.  So no empty room is left, a room of two
    or more is never swept whatever its age, a later sweep does the work of
    an earlier one, and the count of rooms does not grow. *)
Theorem cleanupEmptyRooms_spec (now : Z) (rooms : gmap string GameRoom) :
  (∀ k room, cleanupEmptyRooms now rooms !! k = Some room ↔
     rooms !! k = Some room ∧ players room ≠ []
     ∧ ((2 ≤ length (players room))%nat ∨ now - createdAt room ≤ ROOM_TIMEOUT))
  ∧ (∀ now', now ≤ now' →
       cleanupEmptyRooms now' (cleanupEmptyRooms now rooms)
         = cleanupEmptyRooms now' rooms)
  ∧ (getActiveRoomsCount (cleanupEmptyRooms now rooms)
       ≤ getActiveRoomsCount rooms)%nat.
Proof.
  assert (∀ t k room, cleanupEmptyRooms t rooms !! k = Some room ↔
     rooms !! k = Some room ∧ players room ≠ []
     ∧ ((2 ≤ length (players room))%nat ∨ t - createdAt room ≤ ROOM_TIMEOUT))
    as Hlookup.
  { intros t k room. unfold cleanupEmptyRooms.
    rewrite map_lookup_filter_Some. simpl. by rewrite kept_iff. }
  split; [apply Hlookup|]. split.
  - intros now' Hlater. apply map_eq. intros k. apply option_eq. intros room.
    rewrite Hlookup. unfold cleanupEmptyRooms at 1.
    rewrite map_lookup_filter_Some. simpl. rewrite kept_iff, Hlookup.
    split; [tauto|]. intros (Hk & Hne & Hkeep). repeat split; try done.
    destruct Hkeep as [?|?]; [by left | right; lia].
  - unfold getActiveRoomsCount, cleanupEmptyRooms.
    apply map_subseteq_size, map_filter_subseteq.
Qed.

Lemma cleanupEmptyRooms_spec_witness :
  let room := createRoom "room" "A" "Alice" "s1" 4 0 0 in
  cleanupEmptyRooms 2000000 (cleanupEmptyRooms 1000 {[ "room" := room ]})
    = cleanupEmptyRooms 2000000 {[ "room" := room ]}.
Proof.
  intros room.
  apply (proj1 (proj2 (cleanupEmptyRooms_spec 1000 {[ "room" := room ]}))).
  lia.
Defined.

(** X20. The room that [handleCreateRoom] registers.  With a capacity of 1
    or more it holds its creator alone, active with score 0, whose turn it
    is; the game is neither started nor over.  With a capacity of 0 or less
    [addPlayer] refuses the creator, the handler does not look at the
    answer, and the room is registered empty: the next sweep removes it. *)
Theorem createRoom_spec (roomId playerId playerName socketId : string)
    (maxPlayers joined created : Z) :
  let creator := newPlayer playerId playerName socketId joined in
  let room := createRoom roomId playerId playerName socketId maxPlayers joined created in
  (1 ≤ maxPlayers →
     players room = [creator]
     ∧ gameState room = newGameState
     ∧ getCurrentPlayer room = (Ret (Some (0%nat, creator)), room))
  ∧ (maxPlayers ≤ 0 →
     players room = []
     ∧ ∀ now rooms, cleanupEmptyRooms now (<[roomId:=room]> rooms) !! roomId = None).
Proof.
  intros creator room. split.
  - intros Hmax. unfold room, createRoom, exec, addPlayer. run.
    by rewrite bool_decide_eq_false_2 by lia.
  - intros Hmax.
    assert (players room = []) as Hnil.
    { unfold room, createRoom, exec, addPlayer. run.
      by rewrite bool_decide_eq_true_2 by lia. }
    split; [done|]. intros now rooms. unfold cleanupEmptyRooms.
    apply map_lookup_filter_None. right. intros room' Hroom'.
    rewrite lookup_insert_eq in Hroom'. simplify_eq. simpl.
    rewrite kept_iff. by intros [? _].
Qed.

Lemma createRoom_spec_witness :
  players (createRoom "room" "A" "Alice" "s1" 4 0 0)
    = [newPlayer "A" "Alice" "s1" 0].
Proof.
  assert (1 ≤ 4) as Hmax by lia.
  exact (proj1 (proj1 (createRoom_spec "room" "A" "Alice" "s1" 4 0 0) Hmax)).
Defined.

(** ** Who plays next *)

Section next_player.
Implicit Types (r : GameRoom) (p q cur : Player) (gs : GameState)
  (ps : list Player) (i j s n t : nat).
Local Open Scope nat_scope.

Lemma getCurrentPlayer_Some_cursor r i cur r1 :
  getCurrentPlayer r = (Ret (Some (i, cur)), r1) →
  r1 = set_currentTurnIndex (Num i) r ∧ i < length (players r).
Proof.
  intros Hrun. destruct (getCurrentPlayer_Some r i cur r1 Hrun) as (Hi & _).
  split; [|by eapply lookup_lt_Some].
  destruct (decide (players r = [])) as [Hnil|Hne]; [by rewrite Hnil in Hi|].
  destruct (cursor_ok_or_not r) as [Hok|Hbad].
  - pose proof (getCurrentPlayer_spec r Hok) as Hspec. rewrite Hrun in Hspec.
    by destruct Hspec as (-> & _).
  - by rewrite (getCurrentPlayer_bad_cursor r Hne Hbad) in Hrun.
Qed.

(** [getCurrentPlayer] rests the cursor on the first active player from
    the cursor, when a player is active. *)
Lemma getCurrentPlayer_from r s :
  currentTurnIndex r = Num s → s < length (players r) →
  (∃ p, p ∈ players r ∧ status p = active) →
  ∃ j, first_active_from (players r) s j
    ∧ exec getCurrentPlayer r = set_currentTurnIndex (Num j) r.
Proof.
  intros Hs Hlt (p & Hp & Hact). unfold exec, getCurrentPlayer. run.
  rewrite bool_decide_eq_false_2 by lia.
  destruct (getCurrentPlayer_loop_first (length (players r)) r s Hs Hlt)
    as [(t & q & Ht & Hq & Hqact & Hskip & ->)|[Hnone _]].
  - exists ((s + t) mod length (players r)). split; [|done].
    exists t. split; [done|]. split; [done|]. split; [by exists q | done].
  - exfalso. apply list_elem_of_lookup in Hp as [k Hk].
    destruct (lap_covers s k (length (players r)) Hlt) as (t & Ht & <-);
      [by eapply lookup_lt_Some|].
    by apply (Hnone t p).
Qed.

Lemma exec_turn_change r :
  exec (nextTurn;; getCurrentPlayer;; getState;; mret ()) r
    = exec getCurrentPlayer (exec nextTurn r).
Proof.
  assert (nextTurn r = (Ret (), exec nextTurn r)) as Hnext by done.
  rewrite (exec_bind_ret _ _ _ _ _ Hnext). set (r3 := exec nextTurn r).
  destruct (getCurrentPlayer r3) as [[o|] r4] eqn:Hcur.
  - rewrite (exec_bind_ret _ _ _ _ _ Hcur), exec_getState_unit.
    replace r4 with (exec getCurrentPlayer r3) by (unfold exec; by rewrite Hcur).
    apply exec_getCurrentPlayer_idem.
  - rewrite (exec_bind_throw _ _ _ _ Hcur). unfold exec. by rewrite Hcur.
Qed.

Lemma checkGameOver_not_over gs ps :
  gameOver (checkGameOver gs ps).1.2 = false →
  checkGameOver gs ps = (false, gs, ps) ∧ ∃ p, p ∈ ps ∧ status p = active.
Proof.
  unfold checkGameOver. destruct (gameOver gs) eqn:Hover;
    [simpl; intros; congruence|].
  case_bool_decide as Hnone.
  - pose proof (determineWinner_gameOver (set_gameOver true gs) ps) as (Hg & _).
    destruct (determineWinner _ _) as [gs' ps']. simpl in *. congruence.
  - intros _. split; [done|].
    destruct (filter (λ p, status p = active) ps) as [|p l] eqn:Hf; [done|].
    exists p.
    assert (p ∈ filter (λ p, status p = active) ps) as Hin by (rewrite Hf; left).
    apply list_elem_of_filter in Hin. tauto.
Qed.

(** The change of turn, when the move did not end the game. *)
Lemma after_move_turn r s :
  currentTurnIndex r = Num s → s < length (players r) →
  gameOver (gameState (exec after_move r)) = false →
  players (exec after_move r) = players r
  ∧ gameState (exec after_move r) = gameState r
  ∧ ∃ j, currentTurnIndex (exec after_move r) = Num j
      ∧ first_active_from (players r) ((s + 1) mod length (players r)) j.
Proof.
  intros Hs Hlt Hover.
  destruct (exec_after_move r) as [Hps Hgs]. rewrite Hgs in Hover.
  destruct (checkGameOver_not_over _ _ Hover) as [Hcheck Hactive].
  rewrite Hcheck in Hps, Hgs. simpl in *. split; [done|]. split; [done|].
  assert (exec after_move r = exec getCurrentPlayer (exec nextTurn r)) as ->.
  { unfold after_move.
    rewrite (exec_bind_ret _ _ _ _ _ (room_checkGameOver_effect r)), Hcheck.
    simpl. replace (set_gameState (gameState r) (set_players (players r) r))
      with r by (by destruct r).
    apply exec_turn_change. }
  assert (players r ≠ []) as Hne.
  { intros Hnil. rewrite Hnil in Hlt. simpl in Hlt. lia. }
  unfold exec at 2. rewrite (nextTurn_Num r s Hs Hne). simpl.
  set (r3 := set_currentTurnIndex _ r).
  destruct (getCurrentPlayer_from r3 ((s + 1) mod length (players r)) eq_refl)
    as (j & Hj & ->); [apply Nat.mod_upper_bound; simpl; lia | done |].
  by exists j.
Qed.

Lemma first_active_not_same ps j1 j k p :
  first_active_from ps ((j1 + 1) mod length ps) j →
  j1 < length ps → ps !! k = Some p → status p = active → k ≠ j1 → j ≠ j1.
Proof.
  intros (t & Ht & -> & _ & Hskip) Hj1 Hk Hact Hne Heq.
  pose proof (lookup_lt_Some _ _ _ Hk) as Hklt.
  assert (length ps ≠ 0) as Hn by lia.
  rewrite Nat.Div0.add_mod_idemp_l in Heq.
  assert (t = length ps - 1) as ->.
  { destruct (decide (t = length ps - 1)) as [|Hlt]; [done|]. exfalso.
    assert ((j1 + 1 + t) mod length ps = (j1 + 1 + t) - (if decide (j1 + 1 + t < length ps) then 0 else length ps)) as Hmod.
    { destruct (decide (j1 + 1 + t < length ps)).
      - rewrite Nat.mod_small by done. lia.
      - symmetry. apply (Nat.mod_unique _ _ 1); lia. }
    rewrite Hmod in Heq. destruct (decide (j1 + 1 + t < length ps)); lia. }
  destruct (lap_covers ((j1 + 1) mod length ps) k (length ps)) as (t' & Ht' & Hk');
    [by apply Nat.mod_upper_bound | done |].
  destruct (decide (t' < length ps - 1)) as [Hlt|Hge].
  - apply (Hskip t' p Hlt); [by rewrite Hk' | done].
  - assert (t' = length ps - 1) as -> by lia.
    rewrite Nat.Div0.add_mod_idemp_l in Hk'.
    replace (j1 + 1 + (length ps - 1)) with (j1 + length ps) in Hk' by lia.
    rewrite lap_returns in Hk' by done. congruence.
Qed.

End next_player.

Section hold_turn.
Implicit Types (r : GameRoom) (cur : Player).

Lemma exec_handleHold_state r playerId i cur r1 :
  getCurrentPlayer r = (Ret (Some (i, cur)), r1) → id cur = playerId →
  exec (handleHold playerId) r
    = exec after_move (exec getCurrentPlayer (exec (room_hold i cur) r1)).
Proof.
  intros Hcur Hid. unfold handleHold. rewrite exec_try_catch.
  rewrite (exec_bind_ret _ _ _ _ _ Hcur).
  rewrite bool_decide_eq_false_2 by by intros [].
  assert (∃ res, room_hold i cur r1 = (Ret res, exec (room_hold i cur) r1))
    as [res Hhold].
  { unfold exec, room_hold. run.
    destruct (hold (gameState r1) cur) as [res cur']. by eexists. }
  rewrite (exec_bind_ret _ _ _ _ _ Hhold).
  set (r2 := exec (room_hold i cur) r1).
  rewrite <- exec_getState.
  destruct (getState r2) as [[s|] r3] eqn:Hstate.
  - rewrite (exec_bind_ret _ _ _ _ _ Hstate). unfold exec at 3.
    by rewrite Hstate.
  - exfalso. rewrite getState_cases in Hstate.
    destruct (getCurrentPlayer_Some_cursor r i cur r1 Hcur) as [-> Hlt].
    assert (cursor_ok r2) as Hok.
    { exists i. split; [by unfold r2; rewrite room_hold_effect|].
      right. unfold r2. rewrite room_hold_effect. simpl.
      by rewrite length_insert. }
    pose proof (getCurrentPlayer_spec r2 Hok) as Hspec.
    by destruct (getCurrentPlayer r2) as [[o|] r4].
Qed.

End hold_turn.

(** X21. After a roll by the player whose turn it is that leaves the game
    not over, the turn goes to the first active player met going round the
    roster from the position after the roller: the next active player in
    join order, or the roller again when nobody else is active. *)
Theorem turn_after_roll (r r1 : GameRoom) (playerId : string) (roll : Z)
    (i : nat) (cur : Player) :
  getCurrentPlayer r = (Ret (Some (i, cur)), r1) → id cur = playerId →
  let r' := exec (handle (ROLL_DICE playerId roll)) r in
  gameOver (gameState r') = false →
  ∃ j, currentTurnIndex r' = Num j
    ∧ first_active_from (players r') ((i + 1) mod length (players r')) j.
Proof.
  intros Hcur Hid r' Hover. unfold r' in *. simpl in *.
  rewrite (exec_handleRollDice_turn r _ roll i cur r1 Hcur Hid) in *.
  destruct (getCurrentPlayer_Some_cursor r i cur r1 Hcur) as [-> Hlt].
  set (r2 := exec (room_updateScore i cur roll) _) in *.
  assert (currentTurnIndex r2 = Num i) as Hi
    by by unfold r2; rewrite room_updateScore_effect.
  assert (length (players r2) = length (players r)) as Hlen
    by by unfold r2; rewrite room_updateScore_effect; simpl; rewrite length_insert.
  destruct (after_move_turn r2 i Hi ltac:(lia) Hover) as (Hps & _ & j & Hj & Hfirst).
  exists j. by rewrite Hps.
Qed.

Lemma turn_after_roll_witness :
  let r := exec (handle (JOIN_ROOM "C" "Carol" "s3" 0))
            (exec (handle (JOIN_ROOM "B" "Bob" "s2" 0))
               (exec (handle (JOIN_ROOM "A" "Alice" "s1" 0))
                  (newGameRoom "room" 4 0))) in
  ∃ j, currentTurnIndex (exec (handle (ROLL_DICE "A" 3)) r) = Num j
    ∧ first_active_from (players (exec (handle (ROLL_DICE "A" 3)) r)) 1 j.
Proof.
  intros r.
  exact (turn_after_roll r r "A" 3 0 (newPlayer "A" "Alice" "s1" 0)
           eq_refl eq_refl eq_refl).
Defined.

(** X22. After a hold by the player whose turn it is that leaves the game
    not over, the turn does not go to the first active player after the
    holder: the snapshot broadcast before the change of turn has already
    moved the cursor there, and [nextTurn] then steps past that player.  The
    turn goes to the first active player met going round from the position
    after that one, so another player gets the turn whenever one is
    active. *)
Theorem turn_after_hold (r r1 : GameRoom) (playerId : string)
    (i : nat) (cur : Player) :
  getCurrentPlayer r = (Ret (Some (i, cur)), r1) → id cur = playerId →
  let r' := exec (handle (HOLD playerId)) r in
  gameOver (gameState r') = false →
  ∃ j1 j,
    first_active_from (players r') i j1
    ∧ first_active_from (players r') ((j1 + 1) mod length (players r')) j
    ∧ currentTurnIndex r' = Num j
    ∧ (∀ k p, players r' !! k = Some p → status p = active → k ≠ j1 → j ≠ j1).
Proof.
  intros Hcur Hid r' Hover. unfold r' in *. simpl in *.
  rewrite (exec_handleHold_state r _ i cur r1 Hcur Hid) in *.
  destruct (getCurrentPlayer_Some_cursor r i cur r1 Hcur) as [-> Hlt].
  set (r2 := exec (room_hold i cur) _) in *.
  assert (currentTurnIndex r2 = Num i) as Hi
    by by unfold r2; rewrite room_hold_effect.
  assert (length (players r2) = length (players r)) as Hlen
    by by unfold r2; rewrite room_hold_effect; simpl; rewrite length_insert.
  destruct (getCurrentPlayer_keeps_room r2) as (Hps3 & Hgs3 & _).
  assert (∃ p, p ∈ players r2 ∧ status p = active) as Hactive.
  { destruct (exec_after_move (exec getCurrentPlayer r2)) as [_ Hgs].
    rewrite Hgs in Hover. rewrite <- Hps3.
    by destruct (checkGameOver_not_over _ _ Hover) as [_ ?]. }
  destruct (getCurrentPlayer_from r2 i Hi ltac:(lia) Hactive) as (j1 & Hj1 & Hr3).
  rewrite Hr3 in *. set (r3 := set_currentTurnIndex (Num j1) r2) in *.
  assert (j1 < length (players r2))%nat as Hj1lt.
  { destruct Hj1 as (t & _ & -> & _). apply Nat.mod_upper_bound. lia. }
  destruct (after_move_turn r3 j1 eq_refl Hj1lt Hover) as (Hps & _ & j & Hj & Hfirst).
  exists j1, j. rewrite Hps. simpl. repeat split; try done.
  intros k p Hk Hact Hne. by eapply first_active_not_same.
Qed.

Lemma turn_after_hold_witness :
  let r := exec (handle (JOIN_ROOM "C" "Carol" "s3" 0))
            (exec (handle (JOIN_ROOM "B" "Bob" "s2" 0))
               (exec (handle (JOIN_ROOM "A" "Alice" "s1" 0))
                  (newGameRoom "room" 4 0))) in
  ∃ j1 j, first_active_from (players (exec (handle (HOLD "A")) r)) 0 j1
    ∧ currentTurnIndex (exec (handle (HOLD "A")) r) = Num j ∧ j ≠ j1.
Proof.
  intros r.
  destruct (turn_after_hold r r "A" 0 (newPlayer "A" "Alice" "s1" 0)
              eq_refl eq_refl eq_refl) as (j1 & j & Hj1 & _ & Hj & Hskip).
  exists j1, j. split; [done|]. split; [done|].
  destruct (decide (j1 = 1%nat)) as [->|Hne].
  - by apply (Hskip 2%nat (newPlayer "C" "Carol" "s3" 0)).
  - by apply (Hskip 1%nat (newPlayer "B" "Bob" "s2" 0)).
Defined.

Lemma resetGame_spec_witness :
  let r := exec (handle (ROLL_DICE "A" 6))
            (exec (handle (JOIN_ROOM "A" "Alice" "s1" 0)) (newGameRoom "room" 4 0)) in
  players (exec resetGame r) = [newPlayer "A" "Alice" "s1" 0].
Proof. intros r. exact (proj1 (resetGame_spec r)). Defined.

Section turn_players.
Implicit Types (r : GameRoom) (cur : Player).

Lemma roll_turn_players r r1 playerId roll i cur :
  getCurrentPlayer r = (Ret (Some (i, cur)), r1) → id cur = playerId →
  players (exec (handle (ROLL_DICE playerId roll)) r)
    = (checkGameOver (updateScore (gameState r) cur roll).1.2
         (<[i:=(updateScore (gameState r) cur roll).2]> (players r))).2
  ∧ gameState (exec (handle (ROLL_DICE playerId roll)) r)
    = (checkGameOver (updateScore (gameState r) cur roll).1.2
         (<[i:=(updateScore (gameState r) cur roll).2]> (players r))).1.2.
Proof.
  intros Hcur Hid.
  destruct (getCurrentPlayer_Some r i cur r1 Hcur) as (_ & _ & Hps & Hgs).
  simpl. rewrite (exec_handleRollDice_turn r _ roll i cur r1 Hcur Hid).
  destruct (exec_after_move (exec (room_updateScore i cur roll) r1)) as [-> ->].
  rewrite room_updateScore_effect. simpl. by rewrite Hps, Hgs.
Qed.

Lemma hold_turn_players r r1 playerId i cur :
  getCurrentPlayer r = (Ret (Some (i, cur)), r1) → id cur = playerId →
  players (exec (handle (HOLD playerId)) r)
    = (checkGameOver (gameState r) (<[i:=set_status held cur]> (players r))).2
  ∧ gameState (exec (handle (HOLD playerId)) r)
    = (checkGameOver (gameState r) (<[i:=set_status held cur]> (players r))).1.2.
Proof.
  intros Hcur Hid.
  destruct (getCurrentPlayer_Some r i cur r1 Hcur) as (_ & Hact & Hps & Hgs).
  assert ((hold (gameState r1) cur).2 = set_status held cur) as Hheld.
  { unfold hold. by rewrite bool_decide_eq_false_2 by by intros []. }
  simpl. rewrite (exec_handleHold_state r _ i cur r1 Hcur Hid).
  destruct (exec_after_move (exec getCurrentPlayer (exec (room_hold i cur) r1)))
    as [-> ->].
  destruct (getCurrentPlayer_keeps_room (exec (room_hold i cur) r1)) as (-> & -> & _).
  rewrite room_hold_effect. simpl. by rewrite Hheld, Hps, Hgs.
Qed.

End turn_players.

(** ** Within a round *)

(** X23. A roll (of 1 or more) or a hold, whoever sends it, keeps every
    player in place with the same id, never lowers a score, leaves the
    score of every player who is not active untouched, and moves a status
    only forward: an active player may become bust, held or won, a held
    player may become won, and bust and won are final. *)
Theorem moves_only_forward (r : GameRoom) (e : event) (j : nat) (p : Player) :
  (∃ playerId roll, e = ROLL_DICE playerId roll ∧ 1 ≤ roll)
  ∨ (∃ playerId, e = HOLD playerId) →
  players r !! j = Some p →
  ∃ p', players (exec (handle e) r) !! j = Some p'
    ∧ id p' = id p ∧ score p ≤ score p'
    ∧ (status p ≠ active → score p' = score p)
    ∧ status_after (status p) (status p').
Proof.
  intros He Hj.
  assert (∀ gs ps q, ps !! j = Some q → id q = id p → score p ≤ score q →
            (status p ≠ active → score q = score p) →
            status_after (status p) (status q) →
            ∃ p', (checkGameOver gs ps).2 !! j = Some p'
              ∧ id p' = id p ∧ score p ≤ score p'
              ∧ (status p ≠ active → score p' = score p)
              ∧ status_after (status p) (status p')) as Hcheck.
  { intros gs ps q Hq Hid Hscore Hkeep Hst.
    destruct (checkGameOver_lookup gs ps j q Hq) as (p' & Hp' & Hs & Hi & Hc).
    exists p'. rewrite Hs, Hi. repeat split; try done.
    destruct Hc as [->|[Hcand Hwon']]; [done|].
    unfold status_after in *. rewrite Hwon'.
    destruct Hst as [Heq|[Hactive|[Hheld Hwon]]].
    - rewrite <- Heq. destruct Hcand as [-> | ->]; [by right; right | by left].
    - by right; left.
    - by right; right. }
  assert (∃ p', players (exec getCurrentPlayer r) !! j = Some p'
            ∧ id p' = id p ∧ score p ≤ score p'
            ∧ (status p ≠ active → score p' = score p)
            ∧ status_after (status p) (status p')) as Hsame.
  { destruct (getCurrentPlayer_keeps_room r) as (-> & _).
    exists p. repeat split; try done. by left. }
  assert (∀ playerId,
            (∀ i cur r1, getCurrentPlayer r = (Ret (Some (i, cur)), r1) →
               id cur ≠ playerId) →
            ∀ i cur, result getCurrentPlayer r = Ret (Some (i, cur)) →
              id cur ≠ playerId) as Hres.
  { intros playerId Hno i cur Hr. unfold result in Hr.
    destruct (getCurrentPlayer r) as [o r1] eqn:Hrun. simpl in Hr. subst o.
    by apply (Hno i cur r1). }
  destruct He as [(playerId & roll & -> & Hroll)|(playerId & ->)].
  - destruct (getCurrentPlayer r) as [[[[i cur]|]|] r1] eqn:Hcur.
    + destruct (decide (id cur = playerId)) as [Hid|Hother].
      * destruct (getCurrentPlayer_Some r i cur r1 Hcur) as (Hi & Hact & _).
        destruct (roll_turn_players r r1 playerId roll i cur Hcur Hid) as [-> _].
        pose proof (lookup_lt_Some _ _ _ Hi) as Hlt.
        destruct (decide (j = i)) as [->|Hne].
        -- rewrite Hi in Hj. injection Hj as ->.
           apply (Hcheck _ _ (updateScore (gameState r) p roll).2).
           ++ by apply list_lookup_insert_eq.
           ++ apply updateScore_keeps.
           ++ rewrite updateScore_cases. repeat case_bool_decide; simpl; lia.
           ++ done.
           ++ by right; left.
        -- apply (Hcheck _ _ p); try done; [|by left].
           by rewrite list_lookup_insert_ne.
      * simpl. rewrite exec_handleRollDice_other; [done|].
        apply Hres. intros i' cur' r1' Hrun. by simplify_eq.
    + simpl. rewrite exec_handleRollDice_other; [done|].
      apply Hres. intros i' cur' r1' Hrun. by simplify_eq.
    + simpl. rewrite exec_handleRollDice_other; [done|].
      apply Hres. intros i' cur' r1' Hrun. by simplify_eq.
  - destruct (getCurrentPlayer r) as [[[[i cur]|]|] r1] eqn:Hcur.
    + destruct (decide (id cur = playerId)) as [Hid|Hother].
      * destruct (getCurrentPlayer_Some r i cur r1 Hcur) as (Hi & Hact & _).
        destruct (hold_turn_players r r1 playerId i cur Hcur Hid) as [-> _].
        pose proof (lookup_lt_Some _ _ _ Hi) as Hlt.
        destruct (decide (j = i)) as [->|Hne].
        -- rewrite Hi in Hj. injection Hj as ->.
           apply (Hcheck _ _ (set_status held p)); try done.
           ++ by apply list_lookup_insert_eq.
           ++ by right; left.
        -- apply (Hcheck _ _ p); try done; [|by left].
           by rewrite list_lookup_insert_ne.
      * simpl. rewrite exec_handleHold_other; [done|].
        apply Hres. intros i' cur' r1' Hrun. by simplify_eq.
    + simpl. rewrite exec_handleHold_other; [done|].
      apply Hres. intros i' cur' r1' Hrun. by simplify_eq.
    + simpl. rewrite exec_handleHold_other; [done|].
      apply Hres. intros i' cur' r1' Hrun. by simplify_eq.
Qed.

Lemma moves_only_forward_witness :
  let a := set_status held (set_score 15 (newPlayer "A" "Alice" "s1" 0)) in
  let b := set_score 14 (newPlayer "B" "Bob" "s2" 0) in
  let r := set_players [a; b] (newGameRoom "room" 4 0) in
  ∃ p', players (exec (handle (ROLL_DICE "B" 6)) r) !! 0%nat = Some p'
    ∧ score p' = 15.
Proof.
  intros a b r.
  destruct (moves_only_forward r (ROLL_DICE "B" 6) 0 a)
    as (p' & Hp' & _ & _ & Hkeep & _).
  - left. exists "B", 6. split; [done|lia].
  - done.
  - exists p'. split; [done|]. by apply Hkeep.
Defined.

(** ** The handlers do not fail *)

Section no_failure.
Implicit Types (r : GameRoom) (e : event).



End no_failure.


